(** * Track sessions of the Spotify plugin: a model of [plugin/track.py]

    The [Track] class orchestrates the byte-range streams of one track:
    one-time setup of metadata and stream-source info, a registry of
    streams with a reuse matcher, a rate limiter over the registered
    streams and the playback lifecycle (start, position, end).

    The class is embedded as state passing over a record of its
    attributes.  Python exceptions, an unbounded wait that never returns
    and the effects on the outside (requests, events sent to the metadata
    service, log lines, timers) are explicit: a method is a function
    from the state to an outcome and the state it leaves behind. *)

From Stdlib Require Import ZArith QArith Lia.
From stdpp Require Import base option list gmap strings.

Close Scope Q_scope.
Open Scope Z_scope.

(** ** Values the track refers to *)

Module Range.
(** Modelled from the spec: [plugin/range.py] is not among the sources.
    A range is a start offset and an optional end offset ([None] is
    unbounded); [tuple] is the pair the registry is keyed by. *)
Record t := Range { start : Z; end_ : option Z }.

Definition tuple (r : t) : Z * option Z := (start r, end_ r).
End Range.

(** The info of a resolved stream source is a dictionary ([uri], [lid],
    ...); a resolver response is a dictionary that may hold it under
    [result]. *)
Abbreviation Info := (gmap string string).
Abbreviation Response := (gmap string Info).

Inductive StreamState := opening | reading | buffered.

#[global] Instance StreamState_eq_dec : EqDecision StreamState.
Proof. solve_decision. Defined.

(** Listeners the track registers on a stream. *)
Inductive Listener := limit_buffered_listener.

Module Stream.
(** Modelled from the spec: [plugin/stream.py] is not among the sources.
    The handle carries what the track reads of it: [buffer] is
    [len(stream.buffer)], [on_open] is the outcome of
    [on_open.wait(5)], [on_reading] whether the reading gate is set and
    [once_buffered] the pending one-shot listeners of the transition to
    [buffered]. *)
Record t := Stream {
  index : nat;
  range : Range.t;
  buffer : nat;
  total_length : Z;
  state : StreamState;
  on_open : bool;
  on_reading : bool;
  once_buffered : list Listener
}.

(** [Stream(track, index, range)]: a handle that has not opened yet. *)
Definition new (idx : nat) (r : Range.t) : t :=
  {| index := idx; range := r; buffer := 0%nat; total_length := 0;
     state := opening; on_open := false; on_reading := true;
     once_buffered := [] |}.

Definition on_reading_clear (s : t) : t :=
  {| index := index s; range := range s; buffer := buffer s;
     total_length := total_length s; state := state s;
     on_open := on_open s; on_reading := false;
     once_buffered := once_buffered s |}.

Definition on_reading_set (s : t) : t :=
  {| index := index s; range := range s; buffer := buffer s;
     total_length := total_length s; state := state s;
     on_open := on_open s; on_reading := true;
     once_buffered := once_buffered s |}.

Definition once (l : Listener) (s : t) : t :=
  {| index := index s; range := range s; buffer := buffer s;
     total_length := total_length s; state := state s;
     on_open := on_open s; on_reading := on_reading s;
     once_buffered := once_buffered s ++ [l] |}.
End Stream.

Record Restriction := {
  countries_allowed : string;
  countries_forbidden : string;
  catalogues : string
}.

Module Metadata.
(** Modelled from the spec: the metadata object belongs to the metadata
    service.  [alternative] is the track [find_alternative] would
    switch to, if there is one. *)
Record t := Metadata {
  uri : string;
  available : bool;
  alternative : option string;
  restrictions : list Restriction;
  duration : Z
}.

Definition is_available (m : t) : bool := available m.

Definition find_alternative (m : t) : bool * t :=
  match alternative m with
  | Some u =>
      (true, {| uri := u; available := true; alternative := None;
                restrictions := restrictions m; duration := duration m |})
  | None => (false, m)
  end.
End Metadata.

(** ** Outcomes and effects *)

Inductive Exc :=
| AttributeError   (* attribute of [None] *)
| TypeError        (* subscript of [None] *)
| KeyError (key : string).

Inductive Level := DEBUG | INFO | WARN.

(** What the track does to the outside, in order. *)
Inductive Event :=
| sp_metadata (uri : string)
| metadata_track_uri
| emit_metadata (m : Metadata.t)
| emit_track_uri (info : option Info)
| track_event (lid : string) (event position : Z)
| track_end (lid : string) (position : Z)
| log (lvl : Level) (msg : string)
| Timer_start (seconds : Z)
| Timer_cancel
| callback_raised (e : Exc).

(** How the resolver answers one [track_uri] request before the wait on
    [info_ev] is over: with a response, with an error, or not at all. *)
Inductive UriAnswer :=
| uri_response (response : Response)
| uri_error (error : string)
| uri_silent.

(** The outside of the track: the metadata the service answers with (if
    it answers), the answers of the resolver to the successive requests,
    the readings of [time.time()] in seconds, and the effects so far. *)
Record World := {
  metadata_answer : option Metadata.t;
  uri_answers : list UriAnswer;
  clock : nat -> Q;
  clock_reads : nat;
  trace : list Event
}.

Inductive Res (A : Type) :=
| Ok (a : A)
| Raise (e : Exc)
| Hang.
Arguments Ok {A} a.
Arguments Raise {A} e.
Arguments Hang {A}.

(** ** The track *)

Module Track.

Definition reuse_distance : Z := 1024 * 1024.
Definition final_distance : Z := 128 * 1024.
Definition limit_seconds : Z := 10.

(** The attributes of [__init__].  [streams] is the dictionary keyed
    by range tuples, kept as the list of its items in iteration order;
    [limit_timer] holds the interval of the pending timer.  The two
    locks are not attributes of the model: a method runs to its end
    before the next one starts.  [buffer] of the track is never used
    and left out. *)
Record t := Track {
  uri : string;
  metadata : option Metadata.t;
  metadata_ev : bool;
  info : option Info;
  info_ev : bool;
  streams : list ((Z * option Z) * Stream.t);
  limit_timer : option Z;
  reading_start : option Q;
  playing : bool;
  ended : bool;
  world : World
}.

Definition init (w : World) (u : string) : t :=
  {| uri := u; metadata := None; metadata_ev := false;
     info := None; info_ev := false; streams := [];
     limit_timer := None; reading_start := None;
     playing := false; ended := false; world := w |}.

Definition set_metadata (v : option Metadata.t) (s : t) : t :=
  {| uri := uri s; metadata := v; metadata_ev := metadata_ev s;
     info := info s; info_ev := info_ev s; streams := streams s;
     limit_timer := limit_timer s; reading_start := reading_start s;
     playing := playing s; ended := ended s; world := world s |}.

Definition set_metadata_ev (v : bool) (s : t) : t :=
  {| uri := uri s; metadata := metadata s; metadata_ev := v;
     info := info s; info_ev := info_ev s; streams := streams s;
     limit_timer := limit_timer s; reading_start := reading_start s;
     playing := playing s; ended := ended s; world := world s |}.

Definition set_info (v : option Info) (s : t) : t :=
  {| uri := uri s; metadata := metadata s; metadata_ev := metadata_ev s;
     info := v; info_ev := info_ev s; streams := streams s;
     limit_timer := limit_timer s; reading_start := reading_start s;
     playing := playing s; ended := ended s; world := world s |}.

Definition set_info_ev (v : bool) (s : t) : t :=
  {| uri := uri s; metadata := metadata s; metadata_ev := metadata_ev s;
     info := info s; info_ev := v; streams := streams s;
     limit_timer := limit_timer s; reading_start := reading_start s;
     playing := playing s; ended := ended s; world := world s |}.

Definition set_streams (v : list ((Z * option Z) * Stream.t)) (s : t) : t :=
  {| uri := uri s; metadata := metadata s; metadata_ev := metadata_ev s;
     info := info s; info_ev := info_ev s; streams := v;
     limit_timer := limit_timer s; reading_start := reading_start s;
     playing := playing s; ended := ended s; world := world s |}.

Definition set_limit_timer (v : option Z) (s : t) : t :=
  {| uri := uri s; metadata := metadata s; metadata_ev := metadata_ev s;
     info := info s; info_ev := info_ev s; streams := streams s;
     limit_timer := v; reading_start := reading_start s;
     playing := playing s; ended := ended s; world := world s |}.

Definition set_reading_start (v : option Q) (s : t) : t :=
  {| uri := uri s; metadata := metadata s; metadata_ev := metadata_ev s;
     info := info s; info_ev := info_ev s; streams := streams s;
     limit_timer := limit_timer s; reading_start := v;
     playing := playing s; ended := ended s; world := world s |}.

Definition set_playing (v : bool) (s : t) : t :=
  {| uri := uri s; metadata := metadata s; metadata_ev := metadata_ev s;
     info := info s; info_ev := info_ev s; streams := streams s;
     limit_timer := limit_timer s; reading_start := reading_start s;
     playing := v; ended := ended s; world := world s |}.

Definition set_ended (v : bool) (s : t) : t :=
  {| uri := uri s; metadata := metadata s; metadata_ev := metadata_ev s;
     info := info s; info_ev := info_ev s; streams := streams s;
     limit_timer := limit_timer s; reading_start := reading_start s;
     playing := playing s; ended := v; world := world s |}.

Definition set_world (v : World) (s : t) : t :=
  {| uri := uri s; metadata := metadata s; metadata_ev := metadata_ev s;
     info := info s; info_ev := info_ev s; streams := streams s;
     limit_timer := limit_timer s; reading_start := reading_start s;
     playing := playing s; ended := ended s; world := v |}.

(** *** Methods as state transformers *)

Definition M (A : Type) : Type := t -> Res A * t.

Definition ret {A} (a : A) : M A := fun s => (Ok a, s).

Definition bind {A B} (m : M A) (f : A -> M B) : M B :=
  fun s =>
    match m s with
    | (Ok a, s') => f a s'
    | (Raise e, s') => (Raise e, s')
    | (Hang, s') => (Hang, s')
    end.

Definition raise {A} (e : Exc) : M A := fun s => (Raise e, s).
Definition hang {A} : M A := fun s => (Hang, s).
Definition get : M t := fun s => (Ok s, s).
Definition modify (f : t -> t) : M unit := fun s => (Ok tt, f s).

#[global] Instance M_ret : MRet M := @ret.
#[global] Instance M_bind : MBind M := fun A B f m => bind m f.

(** An effect on the outside is appended to the trace. *)
Definition perform (e : Event) : M unit :=
  modify (fun s =>
    let w := world s in
    set_world {| metadata_answer := metadata_answer w;
                 uri_answers := uri_answers w;
                 clock := clock w; clock_reads := clock_reads w;
                 trace := trace w ++ [e] |} s).

(** [time.time()]: the next reading of the clock. *)
Definition time_time : M Q :=
  s ← get;
  let w := world s in
  modify (set_world {| metadata_answer := metadata_answer w;
                       uri_answers := uri_answers w;
                       clock := clock w; clock_reads := S (clock_reads w);
                       trace := trace w |});;
  mret (clock w (clock_reads w)).

(** The answer of the resolver to the request just sent. *)
Definition next_uri_answer : M UriAnswer :=
  s ← get;
  let w := world s in
  match uri_answers w with
  | [] => mret uri_silent
  | a :: rest =>
      modify (set_world {| metadata_answer := metadata_answer w;
                           uri_answers := rest;
                           clock := clock w; clock_reads := clock_reads w;
                           trace := trace w |});;
      mret a
  end.

(** A callback runs on the thread of the service: an exception it
    raises does not reach the method that waits for it. *)
Definition callback (m : M unit) : M unit :=
  fun s =>
    match m s with
    | (Raise e, s') => perform (callback_raised e) s'
    | r => r
    end.

(** *** Python values in a condition *)

(** [not z] for an integer. *)
Definition not_int (z : Z) : bool := z =? 0.

(** [not e] for an integer or [None]. *)
Definition not_opt_int (e : option Z) : bool :=
  match e with None => true | Some z => z =? 0 end.

(** [int(x)] for a number of seconds or milliseconds: towards zero. *)
Definition int (x : Q) : Z := Z.quot (Qnum x) (Zpos (Qden x)).

(** *** The dictionary of streams *)

Fixpoint dict_get {V} (k : Z * option Z) (d : list ((Z * option Z) * V))
  : option V :=
  match d with
  | [] => None
  | (k', v) :: rest => if decide (k' = k) then Some v else dict_get k rest
  end.

Definition dict_in {V} (k : Z * option Z) (d : list ((Z * option Z) * V))
  : bool :=
  match dict_get k d with Some _ => true | None => false end.

(** [d[k] = v]: the value of a key that is there is replaced, a new key
    comes last in the iteration order (the order of insertion). *)
Fixpoint dict_set {V} (k : Z * option Z) (v : V)
    (d : list ((Z * option Z) * V)) : list ((Z * option Z) * V) :=
  match d with
  | [] => [(k, v)]
  | (k', v') :: rest =>
      if decide (k' = k) then (k, v) :: rest
      else (k', v') :: dict_set k v rest
  end.

(** *** Rate limiting *)

(** The loop of [limit_reset]: every gate is set, [limited] tells
    whether one was clear. *)
Fixpoint limit_reset_loop (items : list ((Z * option Z) * Stream.t))
    (limited : bool) : bool * list ((Z * option Z) * Stream.t) :=
  match items with
  | [] => (limited, [])
  | (range, stream) :: rest =>
      let limited := limited || negb (Stream.on_reading stream) in
      let '(l, rest') := limit_reset_loop rest limited in
      (l, (range, Stream.on_reading_set stream) :: rest')
  end.

Definition limit_reset : M unit :=
  s ← get;
  match limit_timer s with
  | Some _ => perform Timer_cancel;; modify (set_limit_timer None)
  | None => mret tt
  end;;
  s ← get;
  let '(limited, items) := limit_reset_loop (streams s) false in
  modify (set_streams items);;
  if limited then perform (log INFO "Stream rate-limiting disabled")
  else mret tt.

Definition limit_buffered : M unit :=
  s ← get;
  let ready :=
    forallb (fun stream => bool_decide (Stream.state stream = buffered))
      (List.filter Stream.on_reading (map snd (streams s))) in
  if negb ready then mret tt
  else
    perform (log INFO "Priority streams have been buffered");;
    limit_reset.

(** The loop of [limit_set] over the items of the dictionary. *)
Fixpoint limit_set_loop (items : list ((Z * option Z) * Stream.t))
  : M (list ((Z * option Z) * Stream.t)) :=
  match items with
  | [] => mret []
  | ((start, end_), stream) :: rest =>
      if not_int start && not_opt_int end_ then
        perform (log INFO "Stream rate-limiting enabled on %s");;
        rest' ← limit_set_loop rest;
        mret (((start, end_), Stream.on_reading_clear stream) :: rest')
      else
        perform (log INFO "Stream priority enabled on %s");;
        rest' ← limit_set_loop rest;
        mret (((start, end_),
               Stream.once limit_buffered_listener stream) :: rest')
  end.

Definition limit_set : M unit :=
  s ← get;
  (* Ensure we have at least two streams *)
  if (length (streams s) <? 2)%nat then mret tt
  else
    (* Find active streams *)
    let streams_active :=
      List.filter
        (fun item => bool_decide (Stream.state (snd item) = reading))
        (streams s) in
    (* Ignore if this is the first active stream *)
    if (length streams_active <? 1)%nat then mret tt
    else
      perform (log DEBUG "Multiple active streams, setting up rate-limits");;
      items ← limit_set_loop (streams s);
      modify (set_streams items).

(** *** Playback lifecycle *)

Definition on_start : M unit :=
  s ← get;
  if playing s then mret tt
  else
    perform (log INFO "[%s] Started");;
    (* Schedule limit reset *)
    modify (set_limit_timer (Some limit_seconds));;
    perform (Timer_start limit_seconds);;
    (* Fire track start event *)
    match metadata s with
    | None => raise AttributeError
    | Some _ =>
        match info s with
        | None => raise TypeError
        | Some i =>
            match i !! "lid" with
            | None => raise (KeyError "lid")
            | Some lid =>
                perform (track_event lid 3 0);;
                now ← time_time;
                modify (set_reading_start (Some now));;
                modify (set_playing true)
            end
        end
    end.

Definition position : M Z :=
  s ← get;
  position ←
    match reading_start s with
    | Some start =>
        if Qeq_bool start 0 then mret 0
        else
          now ← time_time;
          mret (int ((now - start) * 1000)%Q)
    | None => mret 0
    end;
  match metadata s with
  | None => raise AttributeError
  | Some m =>
      if position >? Metadata.duration m then mret (Metadata.duration m)
      else mret position
  end.

Definition end_ : M unit :=
  s ← get;
  if negb (playing s) || ended s then
    perform (log WARN "[%s] Invalid Track.end() call (playing: %s, ended: %s)")
  else
    _ ← position;
    perform (log DEBUG "[%s] Sending 'track_end' event (position: %s)");;
    match metadata s with
    | None => raise AttributeError
    | Some _ =>
        match info s with
        | None => raise TypeError
        | Some i =>
            match i !! "lid" with
            | None => raise (KeyError "lid")
            | Some lid =>
                p ← position;
                perform (track_end lid p);;
                modify (set_ended true)
            end
        end
    end.

(** *** Setup *)

Fixpoint log_restrictions (rs : list Restriction) : M unit :=
  match rs with
  | [] => mret tt
  | _ :: rest =>
      perform (log INFO
        "[%s] R#%s countries allowed: %s, countries forbidden: %s, catalogues: %s");;
      log_restrictions rest
  end.

Definition on_metadata (m : Metadata.t) : M unit :=
  modify (set_metadata (Some m));;
  (* Ensure track is available, find alternative *)
  (if negb (Metadata.is_available m) then
     perform (log INFO
       "[%s] Track is not available, looking for an alternative...");;
     let '(found, m') := Metadata.find_alternative m in
     modify (set_metadata (Some m'));;
     if found then perform (log INFO "[%s] Alternative found (uri: '%s')")
     else perform (log WARN "[%s] No alternatives could be found")
   else mret tt);;
  (* Log track restrictions for debugging *)
  log_restrictions (Metadata.restrictions m);;
  modify (set_metadata_ev true);;
  s ← get;
  match metadata s with
  | Some m' => perform (emit_metadata m')
  | None => mret tt
  end.

Definition on_track_uri (response : Response) : M unit :=
  modify (set_info (response !! "result"));;
  perform (log DEBUG "received track info: %s");;
  modify (set_info_ev true);;
  s ← get;
  perform (emit_track_uri (info s));;
  (* Track has started *)
  on_start.

Definition on_track_error (error : string) : M unit :=
  modify (set_info None);;
  perform (log WARN "track error: %s");;
  modify (set_info_ev true);;
  s ← get;
  perform (emit_track_uri (info s)).

Definition setup : M unit :=
  s ← get;
  match metadata s with
  | None =>
      (* Fetch metadata *)
      perform (sp_metadata (uri s));;
      match metadata_answer (world s) with
      | Some m => callback (on_metadata m)
      | None => mret tt
      end;;
      (* self.metadata_ev.wait() *)
      s ← get;
      if metadata_ev s then mret tt else hang
  | Some _ => mret tt
  end;;
  s ← get;
  match info s with
  | None =>
      (* Fetch stream info *)
      match metadata s with
      | None => raise AttributeError
      | Some _ =>
          perform metadata_track_uri;;
          answer ← next_uri_answer;
          match answer with
          | uri_response response => callback (on_track_uri response)
          | uri_error error => callback (on_track_error error)
          | uri_silent => mret tt
          end
          (* self.info_ev.wait(timeout=5) returns after the answer, or
             after five seconds without one *)
      end
  | Some _ => mret tt
  end.

(** *** The registry of streams *)

(** The test on the range-end of a candidate: [true] is [continue]. *)
Definition end_not_contained (s_end r_end : option Z) : bool :=
  if bool_decide (s_end ≠ r_end) then
    match r_end, s_end with
    | None, _ | _, None => true
    | Some r_end, Some s_end => s_end <? r_end
    end
  else false.

(** The loop of [stream] over the registered streams; its result is the
    key of the stream the loop returns, [None] when it runs to its
    end. *)
Fixpoint stream_loop (r_range : Range.t)
    (items : list ((Z * option Z) * Stream.t))
  : M (option (Z * option Z)) :=
  match items with
  | [] => mret None
  | ((s_start, s_end), stream) :: rest =>
      (* Ensure stream contains the range-start *)
      if s_start >? Range.start r_range then stream_loop r_range rest
      (* Ensure stream contains the range-end *)
      else if end_not_contained s_end (Range.end_ r_range) then
        stream_loop r_range rest
      (* Wait until the stream has opened *)
      else if negb (Stream.on_open stream) then
        perform (log INFO "Timeout while waiting for stream to open");;
        stream_loop r_range rest
      else
        (* Check if we should open a new stream *)
        let buf_distance :=
          (Range.start r_range - s_start) - Z.of_nat (Stream.buffer stream) in
        let end_distance :=
          Stream.total_length stream - Range.start r_range in
        if (buf_distance >? reuse_distance)
           && (end_distance <? final_distance) then
          perform (log INFO
            "Buffer is %s bytes away and range is %s bytes from the end of the track - ignoring it");;
          stream_loop r_range rest
        else mret (Some (s_start, s_end))
  end.

(** [not self.info or 'uri' not in self.info] *)
Definition info_invalid (i : option Info) : bool :=
  match i with
  | None => true
  | Some i => bool_decide (i = ∅) || bool_decide (i !! "uri" = None)
  end.

(** [stream(r_range)]: the stream returned is named by the key it is
    registered under. *)
Definition stream (r_range : option Range.t) : M (option (Z * option Z)) :=
  let r_range := default (Range.Range 0 None) r_range in
  s ← get;
  (* Check for existing stream (with same range) *)
  if dict_in (Range.tuple r_range) (streams s) then
    perform (log INFO "Returning existing stream (r_range: %s)");;
    (* Ensure we are setup to stream (metadata, info) *)
    setup;;
    mret (Some (Range.tuple r_range))
  else
    found ← stream_loop r_range (streams s);
    match found with
    | Some s_range =>
        perform (log INFO
          "Returning existing stream with similar range (s_range: %s)");;
        (* Ensure we are setup to stream (metadata, info) *)
        setup;;
        mret (Some s_range)
    | None =>
        perform (log INFO "Building stream for track (r_range: %s)");;
        (* Create new stream *)
        let stream := Stream.new (length (streams s)) r_range in
        (* Store stream *)
        modify (set_streams
                  (dict_set (Range.tuple r_range) stream (streams s)));;
        (* Ensure we are setup to stream (metadata, info) *)
        setup;;
        (* Validate stream info *)
        s ← get;
        if info_invalid (info s) then mret None
        else
          limit_set;;
          mret (Some (Range.tuple r_range))
    end.

End Track.

(** * Vocabulary of the properties *)

(** ** Traces and requests *)

Definition items := list ((Z * option Z) * Stream.t).

(** The state with more effects on its trace and nothing else changed. *)
Definition add_trace (es : list Event) (s : Track.t) : Track.t :=
  let w := Track.world s in
  Track.set_world
    {| metadata_answer := metadata_answer w; uri_answers := uri_answers w;
       clock := clock w; clock_reads := clock_reads w;
       trace := trace w ++ es |} s.

(** ** The registry and the reuse policy *)

(** The policy in the words of the specification: the candidate starts no
    later than the request; the ends are equal, or both are bounded and
    the candidate ends no earlier; the wait for the open signal succeeds;
    and it is not so that the gap to the buffer exceeds 1,048,576 while
    the distance to the end of the track is below 131,072. *)
Definition reuse_policy (r : Range.t) (item : (Z * option Z) * Stream.t)
  : bool :=
  let '((c_start, c_end), c) := item in
  let bufferGap := (Range.start r - c_start) - Z.of_nat (Stream.buffer c) in
  let tailDistance := Stream.total_length c - Range.start r in
  (c_start <=? Range.start r)
  && (bool_decide (c_end = Range.end_ r)
      || match c_end, Range.end_ r with
         | Some c_end, Some r_end => r_end <=? c_end
         | _, _ => false
         end)
  && Stream.on_open c
  && negb ((1048576 <? bufferGap) && (tailDistance <? 131072)).

(** The candidate the policy reuses: the first one it admits. *)
Definition reused (r : Range.t) (d : items) : option (Z * option Z) :=
  fst <$> List.find (reuse_policy r) d.

(** Requests in a trace. *)
Definition is_fetch (e : Event) : bool :=
  match e with sp_metadata _ => true | _ => false end.

Definition is_resolution (e : Event) : bool :=
  match e with metadata_track_uri => true | _ => false end.

(** Effects among which there is no request. *)
Definition quiet (es : list Event) : Prop :=
  List.filter is_fetch es = [] /\ List.filter is_resolution es = [].

(** [setup] returns when the metadata is there or the service answers. *)
Definition setup_returns (s : Track.t) : bool :=
  match Track.metadata s, metadata_answer (Track.world s) with
  | None, None => false
  | _, _ => true
  end.

(** What [limit_set] does to one registered stream: the gate of a stream
    whose start and end are both false in a condition is cleared, any
    other stream gets the listener. *)
Definition limit_entry (item : (Z * option Z) * Stream.t)
  : (Z * option Z) * Stream.t :=
  let '((start, end_), stream) := item in
  if Track.not_int start && Track.not_opt_int end_
  then ((start, end_), Stream.on_reading_clear stream)
  else ((start, end_), Stream.once limit_buffered_listener stream).

(** What names a registered stream: its key, its index and its range. *)
Definition ident (item : (Z * option Z) * Stream.t)
  : (Z * option Z) * nat * Range.t :=
  (fst item, Stream.index (snd item), Stream.range (snd item)).

(** Whether [limit_set] goes past its two guards. *)
Definition limit_applies (d : items) : bool :=
  negb (length d <? 2)%nat
  && negb (length (List.filter
             (fun item => bool_decide (Stream.state (snd item) = reading)) d)
           <? 1)%nat.

(** The range a call of [stream] is about. *)
Definition requested (r_range : option Range.t) : Range.t :=
  default (Range.Range 0 None) r_range.

(** ** Sample sessions *)

Definition sample_metadata : Metadata.t :=
  {| Metadata.uri := "spotify:track:sample"; Metadata.available := true;
     Metadata.alternative := None; Metadata.restrictions := [];
     Metadata.duration := 200000 |}.

Definition sample_info : Info := <["uri" := "http://source"]> {["lid" := "lid-1"]}.

(** A world whose metadata service answers, whose resolver answers as
    listed and whose clock advances by a second at each reading. *)
Definition sample_world (answers : list UriAnswer) : World :=
  {| metadata_answer := Some sample_metadata; uri_answers := answers;
     clock := fun n => inject_Z (1000 + Z.of_nat n); clock_reads := 0;
     trace := [] |}.

(** A stream of the whole track that has opened, with nothing buffered
    of 5,000,000 bytes. *)
Definition whole_stream : Stream.t :=
  {| Stream.index := 0; Stream.range := Range.Range 0 None;
     Stream.buffer := 0; Stream.total_length := 5000000;
     Stream.state := reading; Stream.on_open := true;
     Stream.on_reading := true; Stream.once_buffered := [] |}.

(** A session that holds the whole-track stream only. *)
Definition whole_session (answers : list UriAnswer) : Track.t :=
  Track.set_streams [((0, None), whole_stream)]
    (Track.init (sample_world answers) "spotify:track:sample").

(** ** Claims that do not hold as they are stated *)

(** C3 as the specification states it: with the whole-track stream alone
    in the registry, nothing buffered and a total length of 5,000,000, a
    request from byte 2,000,000 on creates a second stream. *)
Definition C3_as_stated : Prop :=
  forall (s : Track.t) (c : Stream.t),
    setup_returns s = true ->
    Track.streams s = [((0, None), c)] ->
    Stream.buffer c = 0%nat ->
    Stream.total_length c = 5000000 ->
    length (Track.streams
              (snd (Track.stream (Some (Range.Range 2000000 None)) s)))
    = 2%nat.

(** C2 as the specification states it: a call after whose setup the info
    is absent or lacks [uri] returns [None], whatever the registry
    holds. *)
Definition C2_as_stated : Prop :=
  forall (r_range : option Range.t) (s : Track.t),
    setup_returns s = true ->
    Track.info_invalid (Track.info (snd (Track.stream r_range s))) = true ->
    fst (Track.stream r_range s) = Ok None.

(** A session before any call, in the sample world. *)
Definition fresh_session (answers : list UriAnswer) : Track.t :=
  Track.init (sample_world answers) "spotify:track:sample".



Definition uri_resolutions (s : Track.t) : nat :=
  length (List.filter is_resolution (trace (Track.world s))).



(** The state after one reading of the clock. *)
Definition clock_read (s : Track.t) : Track.t :=
  let w := Track.world s in
  Track.set_world
    {| metadata_answer := metadata_answer w; uri_answers := uri_answers w;
       clock := clock w; clock_reads := S (clock_reads w);
       trace := trace w |} s.

(** Whether [reading_start] is true in a condition. *)
Definition started (s : Track.t) : bool :=
  match Track.reading_start s with
  | Some start => negb (Qeq_bool start 0)
  | None => false
  end.

(** The milliseconds between [reading_start] and the next reading of the
    clock; zero before the start. *)
Definition elapsed (s : Track.t) : Z :=
  match Track.reading_start s with
  | Some start =>
      if Qeq_bool start 0 then 0
      else
        let w := Track.world s in
        Track.int ((clock w (clock_reads w) - start) * 1000)%Q
  | None => 0
  end.

Definition clamp (duration p : Z) : Z := if p >? duration then duration else p.

(** While the track plays, the metadata is there and the info holds the
    identifier the events are sent with. *)
Definition lifecycle_ok (s : Track.t) : bool :=
  if Track.playing s then
    match Track.metadata s, Track.info s with
    | Some _, Some i =>
        match i !! "lid" with Some _ => true | None => false end
    | _, _ => false
    end
  else true.

(** A session that has started playing: setup on a new session whose
    resolver answers with the sample info. *)
Definition playing_session : Track.t :=
  snd (Track.setup (fresh_session [uri_response {["result" := sample_info]}])).

(** The calls a session receives. *)
Inductive call :=
| call_setup
| call_stream (r_range : option Range.t)
| call_limit_set
| call_limit_buffered
| call_limit_reset
| call_position
| call_end.

Definition run (c : call) (s : Track.t) : Track.t :=
  match c with
  | call_setup => snd (Track.setup s)
  | call_stream r_range => snd (Track.stream r_range s)
  | call_limit_set => snd (Track.limit_set s)
  | call_limit_buffered => snd (Track.limit_buffered s)
  | call_limit_reset => snd (Track.limit_reset s)
  | call_position => snd (Track.position s)
  | call_end => snd (Track.end_ s)
  end.

(** The sessions the calls lead to; between two calls the registered
    streams may change on their side (state, buffer, signals), their
    keys, indices and ranges staying as they are. *)
Inductive reachable : Track.t -> Prop :=
| reachable_init w u : reachable (Track.init w u)
| reachable_run c s : reachable s -> reachable (run c s)
| reachable_stream_side (d : items) s :
    reachable s ->
    map ident d = map ident (Track.streams s) ->
    reachable (Track.set_streams d s).

(** A session that holds its metadata and waits for the resolver. *)
Definition resolving_session : Track.t :=
  snd (Track.on_metadata sample_metadata (fresh_session [])).

(** Two streams, one for the first byte of the track, which is being
    read, and one from byte 4096 on. *)
Definition first_byte_session : Track.t :=
  Track.set_streams
    [((0, Some 0),
      {| Stream.index := 0; Stream.range := Range.Range 0 (Some 0);
         Stream.buffer := 0; Stream.total_length := 5000000;
         Stream.state := reading; Stream.on_open := true;
         Stream.on_reading := true; Stream.once_buffered := [] |});
     ((4096, None),
      {| Stream.index := 1; Stream.range := Range.Range 4096 None;
         Stream.buffer := 0; Stream.total_length := 5000000;
         Stream.state := opening; Stream.on_open := false;
         Stream.on_reading := true; Stream.once_buffered := [] |})]
    (fresh_session []).

(** ** Further vocabulary: gates, stream sides, events *)

(** Whether every reading gate of the registry is set. *)
Definition gates_open (d : items) : bool :=
  forallb (fun item => Stream.on_reading (snd item)) d.

(** A registered stream with its reading gate set. *)
Definition open_gate (item : (Z * option Z) * Stream.t)
  : (Z * option Z) * Stream.t :=
  (fst item, Stream.on_reading_set (snd item)).

(** What the stream side owns of a registered stream, with its name: the
    track reads these and never writes them. *)
Definition transfer (item : (Z * option Z) * Stream.t)
  : ((Z * option Z) * nat * Range.t)
    * (StreamState * nat * Z * bool) :=
  (ident item,
   (Stream.state (snd item), Stream.buffer (snd item),
    Stream.total_length (snd item), Stream.on_open (snd item))).

(** Whether every stream whose gate is set has been buffered: the test
    of [limit_buffered]. *)
Definition priority_buffered (d : items) : bool :=
  forallb (fun stream => bool_decide (Stream.state stream = buffered))
    (List.filter Stream.on_reading (map snd d)).

(** What [limit_reset] does to the outside: it cancels the timer when one
    is pending, and logs the release when a gate was clear. *)
Definition limit_reset_trace (s : Track.t) : list Event :=
  match Track.limit_timer s with
  | Some _ => [Timer_cancel]
  | None => []
  end
  ++ (if gates_open (Track.streams s) then []
      else [log INFO "Stream rate-limiting disabled"]).

(** Events sent to the metadata service, and log lines. *)
Definition is_log (e : Event) : bool :=
  match e with log _ _ => true | _ => false end.

Definition is_started (e : Event) : bool :=
  match e with track_event _ _ _ => true | _ => false end.

Definition is_ended (e : Event) : bool :=
  match e with track_end _ _ => true | _ => false end.

Definition started_events (s : Track.t) : nat :=
  length (List.filter is_started (trace (Track.world s))).

Definition ended_events (s : Track.t) : nat :=
  length (List.filter is_ended (trace (Track.world s))).

(** Whether the resolver leaves the next request without a response: it
    answers with an error or not at all. *)
Definition resolution_fails (s : Track.t) : bool :=
  match uri_answers (Track.world s) with
  | uri_response _ :: _ => false
  | _ => true
  end.

(** Effects that are log lines only. *)
Definition only_logs (es : list Event) : bool := forallb is_log es.

(** The session but for its registry of streams and its trace. *)
Definition core (s : Track.t) :=
  (Track.uri s, Track.metadata s, Track.metadata_ev s, Track.info s,
   Track.info_ev s, Track.limit_timer s, Track.reading_start s,
   Track.playing s, Track.ended s,
   (metadata_answer (Track.world s), uri_answers (Track.world s),
    clock (Track.world s), clock_reads (Track.world s))).

(** Names of registered streams that are numbered from [n] on in the
    order of the registry, each range being the one of its key. *)
Fixpoint numbered (n : nat) (l : list ((Z * option Z) * nat * Range.t))
  : Prop :=
  match l with
  | [] => True
  | (k, i, r) :: l' =>
      i = n /\ r = Range.Range (fst k) (snd k) /\ numbered (S n) l'
  end.

(** A registry as the methods build it: no key twice, the index of a
    stream is its place in the registry, its range is its key. *)
Definition registry_ok (d : items) : Prop :=
  NoDup (map fst d) /\ numbered 0 (map ident d).

(** The sessions that follow a session [s0]: through the calls, and
    through changes of the registered streams on the stream side (state,
    buffer, signals), which keep their keys, indices and ranges. *)
Inductive history (s0 : Track.t) : Track.t -> Prop :=
| history_start : history s0 s0
| history_run c s : history s0 s -> history s0 (run c s)
| history_stream_side (d : items) s :
    history s0 s ->
    map ident d = map ident (Track.streams s) ->
    history s0 (Track.set_streams d s).

(** How one call may move the lifecycle of a session: [playing] and
    [ended] are never reset; a started event is sent exactly when the
    call turns [playing] on, an ended event exactly when it turns [ended]
    on, which it does on a playing track only; [reading_start] is written
    when [playing] is turned on and at no other time. *)
Definition lifecycle_step (s s' : Track.t) : Prop :=
  (Track.playing s = true -> Track.playing s' = true)
  /\ (Track.ended s = true -> Track.ended s' = true)
  /\ (Track.ended s' = true -> Track.ended s = true \/ Track.playing s = true)
  /\ started_events s'
     = (started_events s
        + if Track.playing s then 0 else if Track.playing s' then 1 else 0)%nat
  /\ ended_events s'
     = (ended_events s
        + if Track.ended s then 0 else if Track.ended s' then 1 else 0)%nat
  /\ (Track.playing s' = Track.playing s
      /\ Track.reading_start s' = Track.reading_start s
      \/ Track.playing s = false /\ Track.playing s' = true
         /\ Track.reading_start s' <> None).

(** An info the resolver delivers without [uri], and the session after a
    first acquisition with it. *)
Definition info_without_uri : Info := {["lid" := "lid-1"]}.

Definition session_without_uri : Track.t :=
  snd (Track.stream None
         (fresh_session [uri_response {["result" := info_without_uri]}])).

(** * Properties *)

(** ** Reading the state after effects *)

Lemma perform_eq e s : Track.perform e s = (Ok tt, add_trace [e] s).
Proof. reflexivity. Qed.

Lemma add_trace_nil s : add_trace [] s = s.
Proof.
  destruct s as [? ? ? ? ? ? ? ? ? ? [? ? ? ? tr]]; unfold add_trace; simpl.
  by rewrite app_nil_r.
Qed.

Lemma add_trace_app es es' s :
  add_trace es' (add_trace es s) = add_trace (es ++ es') s.
Proof. unfold add_trace; simpl. by rewrite app_assoc. Qed.

Ltac munfold :=
  unfold mbind, mret, Track.M_bind, Track.M_ret, Track.bind, Track.ret,
    Track.get, Track.modify, Track.raise, Track.hang.

(** ** The reuse matcher *)

Lemma end_not_contained_spec (s_end r_end : option Z) :
  Track.end_not_contained s_end r_end
  = negb (bool_decide (s_end = r_end)
          || match s_end, r_end with
             | Some c_end, Some r_end => r_end <=? c_end
             | _, _ => false
             end).
Proof.
  unfold Track.end_not_contained.
  destruct s_end as [se|], r_end as [re|]; repeat case_bool_decide;
    simpl; try congruence; try done.
  destruct (Z.ltb_spec se re), (Z.leb_spec re se); simpl; try done; lia.
Qed.

(** The loop of [stream] returns the first candidate the policy admits;
    it only logs. *)
Lemma stream_loop_spec r (d : items) s :
  exists es, Track.stream_loop r d s = (Ok (reused r d), add_trace es s).
Proof.
  revert s. induction d as [|[[s_start s_end] c] d IH]; intros s.
  - exists []. by rewrite add_trace_nil.
  - unfold reused. simpl.
    rewrite end_not_contained_spec.
    rewrite (Z.gtb_ltb s_start), (Z.gtb_ltb _ Track.reuse_distance).
    change Track.reuse_distance with 1048576.
    change Track.final_distance with 131072.
    rewrite (Z.leb_antisym (Range.start r) s_start).
    destruct (Range.start r <? s_start); simpl; [apply IH|].
    destruct (bool_decide (s_end = Range.end_ r) || _); simpl; [|apply IH].
    destruct (Stream.on_open c); simpl.
    + destruct (_ && _); simpl.
      * munfold. rewrite perform_eq.
        destruct (IH (add_trace
          [log INFO "Buffer is %s bytes away and range is %s bytes from the end of the track - ignoring it"] s))
          as [es ->].
        eexists. by rewrite add_trace_app.
      * exists []. by rewrite add_trace_nil.
    + munfold. rewrite perform_eq.
      destruct (IH (add_trace
        [log INFO "Timeout while waiting for stream to open"] s)) as [es ->].
      eexists. by rewrite add_trace_app.
Qed.

(** ** Setup *)

(** Two states that differ in the trace only, up to the grouping of the
    appended effects. *)
Ltac state_eq :=
  unfold add_trace; simpl; rewrite <- ?app_assoc; simpl; reflexivity.

Lemma quiet_app es es' : quiet es -> quiet es' -> quiet (es ++ es').
Proof.
  unfold quiet. intros [H1 H2] [H3 H4].
  by rewrite !List.filter_app, H1, H2, H3, H4.
Qed.

Lemma log_restrictions_eq rs s :
  exists es, Track.log_restrictions rs s = (Ok tt, add_trace es s) /\ quiet es.
Proof.
  revert s. induction rs as [|x rs IH]; intros s; simpl.
  - exists []. by rewrite add_trace_nil.
  - munfold. rewrite perform_eq. destruct (IH (add_trace
      [log INFO "[%s] R#%s countries allowed: %s, countries forbidden: %s, catalogues: %s"] s))
      as (es & -> & Hq).
    eexists. rewrite add_trace_app. split; [done|].
    by apply quiet_app.
Qed.

Ltac use_log_restrictions :=
  match goal with
  | |- context [Track.log_restrictions ?rs ?st] =>
      let es := fresh "es" in
      let Hq := fresh "Hq" in
      destruct (log_restrictions_eq rs st) as (es & -> & Hq)
  end.

(** The metadata callback stores the metadata, sets its event, sends no
    request and does not raise. *)
Lemma on_metadata_eq m s :
  exists m' es,
    Track.on_metadata m s
    = (Ok tt, add_trace es
                (Track.set_metadata_ev true (Track.set_metadata (Some m') s)))
    /\ Metadata.duration m' = Metadata.duration m
    /\ quiet es.
Proof.
  unfold Track.on_metadata, Metadata.find_alternative, Track.perform.
  munfold. simpl.
  destruct (Metadata.is_available m); simpl;
    [|destruct (Metadata.alternative m); simpl];
    use_log_restrictions; simpl;
    eexists; eexists; (split; [state_eq|]);
    (split; [reflexivity|]); repeat apply quiet_app; done.
Qed.

(** Case analysis of one run of [setup]: on the attributes it tests, on
    what the service and the resolver answer and on the tests of the
    callbacks. *)
Ltac setup_cases :=
  unfold Track.setup, Track.callback, Track.next_uri_answer,
    Track.on_track_uri, Track.on_track_error, Track.on_start,
    Track.time_time, Track.perform;
  munfold; simpl;
  repeat (first
    [ match goal with
      | |- context [Track.on_metadata ?m ?st] =>
          let m' := fresh "m'" in
          let es := fresh "es" in
          let Hd := fresh "Hd" in
          let Hf := fresh "Hf" in
          let Hr := fresh "Hr" in
          destruct (on_metadata_eq m st) as (m' & es & -> & Hd & Hf & Hr)
      end
    | match goal with
      | |- context [match ?x with _ => _ end] =>
          lazymatch x with
          | context [match _ with _ => _ end] => fail
          | _ => destruct x eqn:?
          end
      end ];
    simpl in *; try congruence).

Lemma setup_streams s : Track.streams (snd (Track.setup s)) = Track.streams s.
Proof. setup_cases; reflexivity. Qed.

Lemma setup_ok s :
  setup_returns s = true ->
  fst (Track.setup s) = Ok tt /\ Track.metadata (snd (Track.setup s)) <> None.
Proof.
  unfold setup_returns. setup_cases; intros; split; congruence.
Qed.

Lemma setup_run s :
  setup_returns s = true ->
  exists s1, Track.setup s = (Ok tt, s1)
             /\ Track.streams s1 = Track.streams s
             /\ Track.metadata s1 <> None.
Proof.
  intros H. destruct (setup_ok s H) as [Hr Hm].
  pose proof (setup_streams s) as Hs.
  destruct (Track.setup s) as [res s1]; simpl in *; subst res. eauto.
Qed.

Lemma setup_returns_metadata s :
  Track.metadata s <> None -> setup_returns s = true.
Proof. unfold setup_returns. by destruct (Track.metadata s). Qed.

(** ** Rate limiting *)

Lemma limit_set_loop_eq (d : items) s :
  exists es, Track.limit_set_loop d s = (Ok (map limit_entry d), add_trace es s).
Proof.
  revert s. induction d as [|[[start end_] c] d IH]; intros s; simpl.
  - exists []. by rewrite add_trace_nil.
  - destruct (Track.not_int start && Track.not_opt_int end_); munfold;
      rewrite perform_eq;
      match goal with
      | |- context [Track.limit_set_loop d ?st] =>
          destruct (IH st) as [es ->]
      end; eexists; by rewrite add_trace_app.
Qed.

Lemma limit_set_eq s :
  exists es,
    Track.limit_set s
    = (Ok tt,
       if limit_applies (Track.streams s)
       then add_trace es (Track.set_streams (map limit_entry (Track.streams s)) s)
       else s).
Proof.
  unfold Track.limit_set, limit_applies. munfold. simpl.
  destruct (length (Track.streams s) <? 2)%nat; simpl; [by exists []|].
  destruct (length _ <? 1)%nat; simpl; [by exists []|].
  match goal with
  | |- context [Track.limit_set_loop ?d ?st] =>
      destruct (limit_set_loop_eq d st) as [es ->]
  end.
  eexists. state_eq.
Qed.

Lemma ident_limit_entry (d : items) : map ident (map limit_entry d) = map ident d.
Proof.
  induction d as [|[[start end_] c] d IH]; simpl; [done|].
  rewrite IH. f_equal.
  by destruct (Track.not_int start && Track.not_opt_int end_).
Qed.

(** ** The registry *)

Lemma dict_in_keys {V} k (d : list ((Z * option Z) * V)) :
  Track.dict_in k d = true <-> k ∈ map fst d.
Proof.
  unfold Track.dict_in. induction d as [|[k' v] d IH]; simpl.
  - split; [done|]. by intros ?%elem_of_nil.
  - destruct (decide (k' = k)) as [->|Hne].
    + split; [|done]. intros _. apply list_elem_of_here.
    + rewrite IH. split.
      * intros. by apply list_elem_of_further.
      * intros [?|?]%elem_of_cons; [congruence|done].
Qed.

Lemma dict_set_fresh {V} k (v : V) d :
  Track.dict_in k d = false -> Track.dict_set k v d = d ++ [(k, v)].
Proof.
  unfold Track.dict_in. induction d as [|[k' v'] d IH]; simpl; [done|].
  destruct (decide (k' = k)); [done|]. intros H. by rewrite IH.
Qed.

(** One call of [stream]: the three ways it ends. *)
Lemma stream_outcome r_range s :
  setup_returns s = true ->
  let r := requested r_range in
  let s' := snd (Track.stream r_range s) in
  let res := fst (Track.stream r_range s) in
  Track.metadata s' <> None
  /\ if Track.dict_in (Range.tuple r) (Track.streams s)
     then res = Ok (Some (Range.tuple r))
          /\ Track.streams s' = Track.streams s
     else match reused r (Track.streams s) with
          | Some k => res = Ok (Some k) /\ Track.streams s' = Track.streams s
          | None =>
              res = Ok (if Track.info_invalid (Track.info s') then None
                        else Some (Range.tuple r))
              /\ map ident (Track.streams s')
                 = map ident (Track.streams s)
                   ++ [(Range.tuple r, length (Track.streams s), r)]
          end.
Proof.
  intros Hret. unfold Track.stream. fold (requested r_range).
  generalize (requested r_range) as r. intros r. munfold. simpl.
  destruct (Track.dict_in (Range.tuple r) (Track.streams s)) eqn:Hin.
  - match goal with
    | |- context [Track.setup ?st] =>
        destruct (setup_run st) as (s1 & -> & Hs & Hm); [done|]
    end. simpl. auto.
  - destruct (stream_loop_spec r (Track.streams s) s) as [es ->].
    destruct (reused r (Track.streams s)) as [k|];
      match goal with
      | |- context [Track.setup ?st] =>
          destruct (setup_run st) as (s1 & -> & Hs & Hm); [done|]
      end; simpl in *; [auto|].
    rewrite dict_set_fresh in Hs by done.
    destruct (Track.info_invalid (Track.info s1)) eqn:Hinv; simpl.
    + rewrite Hinv, Hs, map_app. auto.
    + destruct (limit_set_eq s1) as [es' ->].
      destruct (limit_applies (Track.streams s1)); simpl;
        rewrite Hinv, ?ident_limit_entry, Hs, map_app; auto.
Qed.

Lemma dict_get_last (d0 d : items) k i r :
  map ident d = map ident d0 ++ [(k, i, r)] ->
  Track.dict_in k d0 = false ->
  exists c, Track.dict_get k d = Some c
            /\ Stream.index c = i /\ Stream.range c = r.
Proof.
  unfold Track.dict_in. revert d.
  induction d0 as [|[k0 c0] d0 IH]; intros [|[k1 c1] d] Heq Hin;
    simpl in *; try discriminate.
  - injection Heq as -> <- <- _. exists c1.
    by destruct (decide (k = k)).
  - injection Heq as <- _ _ Heq.
    destruct (decide (k1 = k)); [discriminate|]. by apply IH.
Qed.

Lemma keys_of_ident (d : items) :
  map fst d = map (fun x => fst (fst x)) (map ident d).
Proof. rewrite map_map. reflexivity. Qed.

(** ** The reuse matcher: claims *)

(** C1. For a request whose range has no exact match in the registry,
    the call returns the first registered stream, in scan order, that the
    reuse policy admits (start not after the requested start; equal ends or
    both bounded with the candidate ending no earlier; open-signal wait
    successful; not both a buffer gap above 1,048,576 and a tail distance
    below 131,072), and then the registry is unchanged.  If the policy
    admits no candidate, a stream with the requested range and with the
    size of the registry as its index is added to the registry, all other
    entries staying in place. *)
Theorem C1_reuse_matcher_policy (r_range : option Range.t) (s : Track.t) :
  setup_returns s = true ->
  Track.dict_in (Range.tuple (requested r_range)) (Track.streams s) = false ->
  let r := requested r_range in
  let res := fst (Track.stream r_range s) in
  let s' := snd (Track.stream r_range s) in
  match List.find (reuse_policy r) (Track.streams s) with
  | Some (k, _) => res = Ok (Some k) /\ Track.streams s' = Track.streams s
  | None =>
      (res = Ok None \/ res = Ok (Some (Range.tuple r)))
      /\ map ident (Track.streams s')
         = map ident (Track.streams s)
           ++ [(Range.tuple r, length (Track.streams s), r)]
  end.
Proof.
  intros Hret Hin. cbv zeta.
  destruct (stream_outcome r_range s Hret) as [_ H].
  rewrite Hin in H. unfold reused in H.
  destruct (List.find (reuse_policy _) (Track.streams s)) as [[k c]|];
    simpl in H; [exact H|].
  destruct H as [Hres Hid]. split; [|exact Hid].
  rewrite Hres. destruct (Track.info_invalid _); auto.
Qed.

Lemma C1_reuse_matcher_policy_witness :
  fst (Track.stream (Some (Range.Range 4096 None)) (whole_session []))
  = Ok (Some (0, None))
  /\ Track.streams
       (snd (Track.stream (Some (Range.Range 4096 None)) (whole_session [])))
     = Track.streams (whole_session []).
Proof.
  exact (C1_reuse_matcher_policy (Some (Range.Range 4096 None))
           (whole_session []) eq_refl eq_refl).
Defined.

(** C3, counterexample.  The whole-track stream has opened: the request
    from byte 2,000,000 is given that stream and the registry keeps its
    single entry. *)
Lemma C3_counterexample :
  ~ C3_as_stated
  /\ fst (Track.stream (Some (Range.Range 2000000 None)) (whole_session []))
     = Ok (Some (0, None))
  /\ length (Track.streams
       (snd (Track.stream (Some (Range.Range 2000000 None))
               (whole_session []))))
     = 1%nat.
Proof.
  split; [|split; reflexivity].
  intros H.
  specialize (H (whole_session []) whole_stream eq_refl eq_refl eq_refl eq_refl).
  discriminate H.
Qed.

(** C3, amended.  In that session the request from byte 2,000,000 is
    served by the registered stream when its open signal arrives within
    the wait (the gap of 2,000,000 exceeds the threshold, but the tail
    distance of 3,000,000 is not below 131,072), and the registry keeps
    its single entry; a second stream is created only when the wait for
    the open signal times out. *)
Theorem C3_second_request_reuses (s : Track.t) (c : Stream.t) :
  setup_returns s = true ->
  Track.streams s = [((0, None), c)] ->
  Stream.buffer c = 0%nat ->
  Stream.total_length c = 5000000 ->
  let res := fst (Track.stream (Some (Range.Range 2000000 None)) s) in
  let s' := snd (Track.stream (Some (Range.Range 2000000 None)) s) in
  if Stream.on_open c
  then res = Ok (Some (0, None)) /\ Track.streams s' = [((0, None), c)]
  else length (Track.streams s') = 2%nat.
Proof.
  intros Hret Hs Hb Ht. cbv zeta.
  destruct (stream_outcome (Some (Range.Range 2000000 None)) s Hret) as [_ H].
  rewrite Hs in H. unfold reused in H. simpl in H.
  rewrite Hb, Ht in H. simpl in H.
  destruct (Stream.on_open c); simpl in H.
  - exact H.
  - destruct H as [_ H]. apply (f_equal length) in H.
    by rewrite !length_map in H.
Qed.

Lemma C3_second_request_reuses_witness :
  fst (Track.stream (Some (Range.Range 2000000 None)) (whole_session []))
  = Ok (Some (0, None))
  /\ Track.streams
       (snd (Track.stream (Some (Range.Range 2000000 None))
               (whole_session [])))
     = [((0, None), whole_stream)].
Proof.
  exact (C3_second_request_reuses (whole_session []) whole_stream
           eq_refl eq_refl eq_refl eq_refl).
Defined.

(** ** Acquisition and the stream-source info: claims *)

(** C2, counterexample.  The whole-track stream is registered and the
    resolver answers with an error: the info is absent after the call,
    which returns the registered stream all the same. *)
Lemma C2_counterexample :
  ~ C2_as_stated
  /\ Track.info (whole_session [uri_error "failed"]) = None
  /\ Track.info (snd (Track.stream None (whole_session [uri_error "failed"])))
     = None
  /\ fst (Track.stream None (whole_session [uri_error "failed"]))
     = Ok (Some (0, None)).
Proof.
  split; [|repeat split; reflexivity].
  intros H.
  specialize (H None (whole_session [uri_error "failed"]) eq_refl eq_refl).
  discriminate H.
Qed.

(** C2, amended.  A call after whose setup the info is absent or lacks
    [uri] raises no exception; it returns [None] when the requested range
    has neither an exact nor a compatible match in the registry, and it
    returns the matching registered stream when there is one. *)
Theorem C2_absent_info_fails_new_streams (r_range : option Range.t)
    (s : Track.t) :
  setup_returns s = true ->
  Track.info_invalid (Track.info (snd (Track.stream r_range s))) = true ->
  let r := requested r_range in
  fst (Track.stream r_range s)
  = Ok (if Track.dict_in (Range.tuple r) (Track.streams s)
        then Some (Range.tuple r)
        else reused r (Track.streams s)).
Proof.
  intros Hret Hinv. cbv zeta.
  destruct (stream_outcome r_range s Hret) as [_ H].
  destruct (Track.dict_in _ (Track.streams s)); [tauto|].
  destruct (reused _ (Track.streams s)); [tauto|].
  destruct H as [-> _]. by rewrite Hinv.
Qed.

Lemma C2_absent_info_fails_new_streams_witness :
  fst (Track.stream (Some (Range.Range 0 (Some 1023)))
         (whole_session [uri_error "failed"]))
  = Ok None.
Proof.
  exact (C2_absent_info_fails_new_streams (Some (Range.Range 0 (Some 1023)))
           (whole_session [uri_error "failed"]) eq_refl eq_refl).
Defined.




(** C10.  When a call creates a stream and returns [None] because the
    info is absent or lacks [uri], the stream stays registered under the
    requested range, with the former size of the registry as its index;
    the next call for the same range returns it through the exact match,
    whatever the info is by then. *)
Theorem C10_failed_acquisition_keeps_stream (r_range : option Range.t)
    (s : Track.t) :
  setup_returns s = true ->
  fst (Track.stream r_range s) = Ok None ->
  let r := requested r_range in
  let s1 := snd (Track.stream r_range s) in
  Track.dict_in (Range.tuple r) (Track.streams s) = false
  /\ (exists c, Track.dict_get (Range.tuple r) (Track.streams s1) = Some c
                /\ Stream.index c = length (Track.streams s)
                /\ Stream.range c = r)
  /\ fst (Track.stream r_range s1) = Ok (Some (Range.tuple r))
  /\ Track.streams (snd (Track.stream r_range s1)) = Track.streams s1.
Proof.
  intros Hret Hnone. cbv zeta.
  destruct (stream_outcome r_range s Hret) as [Hm H1].
  apply setup_returns_metadata in Hm.
  destruct (stream_outcome r_range (snd (Track.stream r_range s)) Hm)
    as [_ H2].
  rewrite Hnone in H1.
  destruct (Track.dict_in _ (Track.streams s)) eqn:Hin;
    [by destruct H1|].
  destruct (reused _ (Track.streams s)); [by destruct H1|].
  destruct H1 as [_ Hs1].
  destruct (dict_get_last _ _ _ _ _ Hs1 Hin) as (c & Hc & Hi & Hr).
  assert (Track.dict_in (Range.tuple (requested r_range))
            (Track.streams (snd (Track.stream r_range s))) = true) as Hin1.
  { unfold Track.dict_in. by rewrite Hc. }
  rewrite Hin1 in H2. destruct H2 as [Hr2 Hs2].
  split; [done|]. split; [by exists c|]. auto.
Qed.

Lemma C10_failed_acquisition_keeps_stream_witness :
  fst (Track.stream None
         (snd (Track.stream None
                 (fresh_session [uri_error "failed"; uri_error "failed"]))))
  = Ok (Some (0, None))
  /\ Track.info
       (snd (Track.stream None
          (snd (Track.stream None
                  (fresh_session [uri_error "failed"; uri_error "failed"])))))
     = None.
Proof.
  split; [|reflexivity].
  exact (proj1 (proj2 (proj2
    (C10_failed_acquisition_keeps_stream None
       (fresh_session [uri_error "failed"; uri_error "failed"])
       eq_refl eq_refl)))).
Defined.

(** ** Setup: claims *)



Lemma setup_idle s :
  Track.metadata s <> None -> Track.info s <> None ->
  Track.setup s = (Ok tt, s).
Proof.
  intros Hm Hi. unfold Track.setup. munfold. simpl.
  destruct (Track.metadata s); [|done]. simpl.
  by destruct (Track.info s).
Qed.

Lemma setup_info_kept s :
  Track.info s <> None -> Track.info (snd (Track.setup s)) = Track.info s.
Proof. setup_cases; intros; congruence. Qed.





(** ** Playback lifecycle *)

Lemma position_eq s m :
  Track.metadata s = Some m ->
  Track.position s
  = (Ok (clamp (Metadata.duration m) (elapsed s)),
     if started s then clock_read s else s).
Proof.
  intros Hm. unfold Track.position, Track.time_time, started, elapsed, clamp.
  munfold. simpl.
  destruct (Track.reading_start s) as [start|]; simpl.
  - destruct (Qeq_bool start 0); simpl; rewrite Hm;
      by destruct (_ >? Metadata.duration m).
  - rewrite Hm. by destruct (0 >? Metadata.duration m).
Qed.

Lemma position_none s :
  Track.metadata s = None ->
  Track.position s
  = (Raise AttributeError, if started s then clock_read s else s).
Proof.
  intros Hm. unfold Track.position, Track.time_time, started. munfold. simpl.
  destruct (Track.reading_start s) as [start|]; simpl.
  - destruct (Qeq_bool start 0); simpl; by rewrite Hm.
  - by rewrite Hm.
Qed.

(** With the metadata held and a duration that is not negative, the
    position is at most the duration; it is zero before the start, and
    not negative when the clock has not gone back behind the start. *)
Lemma position_bounds s m :
  Track.metadata s = Some m ->
  0 <= Metadata.duration m ->
  exists p, fst (Track.position s) = Ok p
            /\ p <= Metadata.duration m
            /\ (Track.reading_start s = None -> p = 0)
            /\ (0 <= elapsed s -> 0 <= p).
Proof.
  intros Hm Hd. rewrite (position_eq s m Hm). eexists. split; [reflexivity|].
  unfold clamp, elapsed.
  destruct (Track.reading_start s) as [start|].
  - repeat split; [|done|];
      destruct (Z.gtb_spec
        (if Qeq_bool start 0 then 0
         else Track.int ((clock (Track.world s) (clock_reads (Track.world s)) - start) * 1000)%Q)
        (Metadata.duration m)); lia.
  - destruct (Z.gtb_spec 0 (Metadata.duration m)); repeat split; lia.
Qed.

(** The two ways a call of [end] goes. *)
Lemma end_eq (s : Track.t) :
  (Track.playing s = true -> Track.ended s = false ->
   lifecycle_ok s = true ->
   let s1 := add_trace
               [log DEBUG "[%s] Sending 'track_end' event (position: %s)"]
               (snd (Track.position s)) in
   exists i lid p,
     Track.info s = Some i /\ i !! "lid" = Some lid
     /\ fst (Track.position s1) = Ok p
     /\ Track.end_ s
        = (Ok tt,
           Track.set_ended true
             (add_trace [track_end lid p] (snd (Track.position s1)))))
  /\ (Track.playing s && negb (Track.ended s) = false ->
      Track.end_ s
      = (Ok tt,
         add_trace
           [log WARN "[%s] Invalid Track.end() call (playing: %s, ended: %s)"]
           s)).
Proof.
  split.
  - intros Hp He Hinv. cbv zeta. unfold lifecycle_ok in Hinv.
    rewrite Hp in Hinv.
    destruct (Track.metadata s) as [m|] eqn:Hm; [|done].
    destruct (Track.info s) as [i|] eqn:Hi; [|done].
    destruct (i !! "lid") as [lid|] eqn:Hlid; [|done].
    unfold Track.end_. munfold. simpl. rewrite Hp, He. simpl.
    rewrite (position_eq s m Hm). simpl.
    rewrite Hm, Hi, Hlid.
    destruct (started s);
      repeat match goal with
             | |- context [Track.position ?st] =>
                 rewrite (position_eq st m) by exact Hm
             end;
      exists i, lid; eexists;
      (split; [reflexivity|]); (split; [exact Hlid|]); split; reflexivity.
  - intros H. unfold Track.end_. munfold. simpl.
    destruct (Track.playing s), (Track.ended s); try discriminate H;
      reflexivity.
Qed.



(** *** The lifecycle invariant holds in every session the methods lead to *)

Lemma setup_lifecycle s :
  lifecycle_ok s = true -> lifecycle_ok (snd (Track.setup s)) = true.
Proof.
  unfold lifecycle_ok. setup_cases; intros;
    repeat match goal with
           | H : _ = _ |- _ => rewrite H in *
           end; simpl in *; congruence.
Qed.

Lemma limit_set_lifecycle s :
  lifecycle_ok s = true -> lifecycle_ok (snd (Track.limit_set s)) = true.
Proof.
  intros H. destruct (limit_set_eq s) as [es ->]. simpl.
  by destruct (limit_applies (Track.streams s)).
Qed.

Lemma limit_reset_lifecycle s :
  lifecycle_ok s = true -> lifecycle_ok (snd (Track.limit_reset s)) = true.
Proof.
  intros H. unfold Track.limit_reset, Track.perform. munfold. simpl.
  destruct (Track.limit_timer s); simpl;
    destruct (Track.limit_reset_loop (Track.streams s) false) as [[] d];
    exact H.
Qed.

Lemma limit_buffered_lifecycle s :
  lifecycle_ok s = true -> lifecycle_ok (snd (Track.limit_buffered s)) = true.
Proof.
  intros H. unfold Track.limit_buffered. munfold. simpl.
  destruct (forallb _ _); simpl; [|exact H].
  match goal with
  | |- context [Track.limit_reset ?st] =>
      pose proof (limit_reset_lifecycle st H) as Hr;
      destruct (Track.limit_reset st) as [[] s1]
  end; exact Hr.
Qed.

Lemma position_lifecycle s :
  lifecycle_ok s = true -> lifecycle_ok (snd (Track.position s)) = true.
Proof.
  intros H. destruct (Track.metadata s) as [m|] eqn:Hm.
  - rewrite (position_eq s m Hm). simpl. by destruct (started s).
  - rewrite (position_none s Hm). simpl. by destruct (started s).
Qed.

Lemma end_lifecycle s :
  lifecycle_ok s = true -> lifecycle_ok (snd (Track.end_ s)) = true.
Proof.
  intros H. destruct (end_eq s) as [Heff Hinv].
  destruct (Track.playing s) eqn:Hp; [destruct (Track.ended s) eqn:He|];
    try (rewrite Hinv by done; simpl; unfold lifecycle_ok in *; simpl;
         by rewrite ?Hp in *).
  destruct (Heff eq_refl eq_refl H) as (i & lid & p & Hi & Hlid & _ & ->).
  simpl.
  match goal with
  | |- context [Track.position ?st] =>
      pose proof (position_lifecycle st) as Hpos;
      destruct (Track.position st) as [r s2]
  end.
  simpl in *. apply Hpos. by apply position_lifecycle.
Qed.

Lemma stream_lifecycle r_range s :
  lifecycle_ok s = true ->
  lifecycle_ok (snd (Track.stream r_range s)) = true.
Proof.
  intros H. unfold Track.stream. generalize (default (Range.Range 0 None) r_range) as r.
  intros r. munfold. simpl.
  destruct (Track.dict_in (Range.tuple r) (Track.streams s)).
  - match goal with
    | |- context [Track.setup ?st] =>
        pose proof (setup_lifecycle st H) as Hs;
        destruct (Track.setup st) as [[] s1]
    end; exact Hs.
  - destruct (stream_loop_spec r (Track.streams s) s) as [es ->].
    destruct (reused r (Track.streams s)) as [k|];
      match goal with
      | |- context [Track.setup ?st] =>
          pose proof (setup_lifecycle st H) as Hs;
          destruct (Track.setup st) as [[] s1]
      end; simpl in *; try exact Hs.
    destruct (Track.info_invalid (Track.info s1)); simpl; [exact Hs|].
    pose proof (limit_set_lifecycle s1 Hs) as Hl.
    by destruct (Track.limit_set s1) as [[] s2].
Qed.

Lemma reachable_lifecycle s : reachable s -> lifecycle_ok s = true.
Proof.
  induction 1 as [w u|c s _ IH|d s _ IH _]; [reflexivity| |exact IH].
  destruct c; simpl.
  - by apply setup_lifecycle.
  - by apply stream_lifecycle.
  - by apply limit_set_lifecycle.
  - by apply limit_buffered_lifecycle.
  - by apply limit_reset_lifecycle.
  - by apply position_lifecycle.
  - by apply end_lifecycle.
Qed.

(** ** Position: claim *)

(** C8.  Reading [position] on a session whose setup has not run raises
    [AttributeError]: the position is zero there, but the comparison with
    the duration reads the metadata, which is [None].  ([position_bounds]
    has the claim for the sessions that hold their metadata.) *)
Theorem C8_position_before_setup (w : World) (u : string) :
  Track.reading_start (Track.init w u) = None
  /\ Track.position (Track.init w u) = (Raise AttributeError, Track.init w u).
Proof. split; reflexivity. Qed.

(** ** The resolver callback: claim *)

(** C9.  The success callback of the resolver starts the playback
    handling whatever the response holds.  A response without [result]
    schedules the limit timer and raises [TypeError]; a result without
    [lid] schedules the timer and raises [KeyError]; a result with [lid]
    and without [uri] sends the started event and sets [playing]. *)
Theorem C9_malformed_response_starts_playback :
  (fst (Track.on_track_uri ∅ resolving_session) = Raise TypeError
   /\ Track.limit_timer (snd (Track.on_track_uri ∅ resolving_session))
      = Some 10
   /\ last (trace (Track.world (snd (Track.on_track_uri ∅ resolving_session))))
      = Some (Timer_start 10))
  /\ (fst (Track.on_track_uri {["result" := {["uri" := "http://source"]}]}
             resolving_session)
      = Raise (KeyError "lid")
      /\ Track.limit_timer
           (snd (Track.on_track_uri
                   {["result" := {["uri" := "http://source"]}]}
                   resolving_session))
         = Some 10)
  /\ (fst (Track.on_track_uri {["result" := {["lid" := "lid-1"]}]}
             resolving_session)
      = Ok tt
      /\ Track.playing
           (snd (Track.on_track_uri {["result" := {["lid" := "lid-1"]}]}
                   resolving_session))
         = true
      /\ last (trace (Track.world
           (snd (Track.on_track_uri {["result" := {["lid" := "lid-1"]}]}
                   resolving_session))))
         = Some (track_event "lid-1" 3 0)).
Proof. repeat split; vm_compute; reflexivity. Qed.

(** ** Rate limiting: claim *)

Lemma limit_set_idle s :
  limit_applies (Track.streams s) = false -> Track.limit_set s = (Ok tt, s).
Proof. intros H. destruct (limit_set_eq s) as [es ->]. by rewrite H. Qed.

(** Past its guards, [limit_set] clears the gate of the whole-track
    stream and gives the listener to a stream that starts later or ends
    at a byte other than zero. *)
Lemma limit_entry_cases start end_ c :
  (start = 0 -> end_ = None ->
   limit_entry ((start, end_), c) = ((start, end_), Stream.on_reading_clear c))
  /\ (start <> 0 \/ (exists e, end_ = Some e /\ e <> 0) ->
      limit_entry ((start, end_), c)
      = ((start, end_), Stream.once limit_buffered_listener c)).
Proof.
  unfold limit_entry, Track.not_int, Track.not_opt_int. split.
  - by intros -> ->.
  - intros [H|(e & -> & H)].
    + by destruct (Z.eqb_spec start 0).
    + destruct (Z.eqb_spec e 0); [done|]. by rewrite andb_false_r.
Qed.

(** C6.  The stream of the range from byte zero to byte zero is not the
    whole-track stream, yet [limit_set] clears its reading gate and
    registers no listener on it: the test takes an end of zero for an
    unbounded end. *)
Theorem C6_first_byte_range_is_paused :
  (0, Some 0) <> ((0, None) : Z * option Z)
  /\ fst (Track.limit_set first_byte_session) = Ok tt
  /\ (Stream.on_reading
      <$> Track.dict_get (0, Some 0)
            (Track.streams (snd (Track.limit_set first_byte_session))))
     = Some false
  /\ (Stream.once_buffered
      <$> Track.dict_get (0, Some 0)
            (Track.streams (snd (Track.limit_set first_byte_session))))
     = Some []
  /\ (Stream.once_buffered
      <$> Track.dict_get (4096, None)
            (Track.streams (snd (Track.limit_set first_byte_session))))
     = Some [limit_buffered_listener].
Proof. split; [discriminate|]. repeat split; vm_compute; reflexivity. Qed.

(** * Further properties of the methods *)

(** ** [limit_reset] and [limit_buffered] *)

Lemma limit_reset_loop_eq (d : items) limited :
  Track.limit_reset_loop d limited
  = (limited || negb (gates_open d), map open_gate d).
Proof.
  revert limited. induction d as [|[k c] d IH]; intros limited; simpl.
  - by rewrite orb_false_r.
  - rewrite IH. unfold open_gate; simpl. f_equal.
    destruct limited, (Stream.on_reading c); reflexivity.
Qed.

(** The effects of [limit_reset], in order: the pending timer is
    cancelled, the gates are set, and the release is logged when a gate
    was clear. *)
Lemma limit_reset_eq s :
  Track.limit_reset s
  = (Ok tt,
     add_trace
       (limit_reset_trace s)
       (Track.set_streams (map open_gate (Track.streams s))
          (Track.set_limit_timer None s))).
Proof.
  destruct s as [u md mev i iev d tm rs pl en [ma ua ck cr tr]].
  unfold Track.limit_reset, Track.perform, limit_reset_trace. munfold. simpl.
  destruct tm; simpl; rewrite limit_reset_loop_eq; simpl;
    destruct (gates_open d); simpl;
    unfold add_trace, Track.set_streams, Track.set_limit_timer,
      Track.set_world; simpl; rewrite <- ?app_assoc, ?app_nil_r;
    reflexivity.
Qed.

Lemma gates_open_open_gate (d : items) : gates_open (map open_gate d) = true.
Proof. induction d as [|[k c] d IH]; simpl; [done|exact IH]. Qed.

Lemma open_gate_idem (d : items) :
  map open_gate (map open_gate d) = map open_gate d.
Proof. rewrite map_map. apply map_ext. by intros [k c]. Qed.

Lemma transfer_open_gate (d : items) :
  map transfer (map open_gate d) = map transfer d.
Proof. rewrite map_map. apply map_ext. by intros [k c]. Qed.

Lemma transfer_limit_entry (d : items) :
  map transfer (map limit_entry d) = map transfer d.
Proof.
  rewrite map_map. apply map_ext. intros [[start end_] c]. simpl.
  by destruct (Track.not_int start && Track.not_opt_int end_).
Qed.

(** After [limit_reset] every reading gate is set and no timer is
    pending; the streams are the same otherwise, and the call does not
    raise. *)
Theorem limit_reset_opens_every_gate (s : Track.t) :
  fst (Track.limit_reset s) = Ok tt
  /\ Track.streams (snd (Track.limit_reset s))
     = map open_gate (Track.streams s)
  /\ gates_open (Track.streams (snd (Track.limit_reset s))) = true
  /\ Track.limit_timer (snd (Track.limit_reset s)) = None
  /\ map (fun item => (transfer item, Stream.once_buffered (snd item)))
       (Track.streams (snd (Track.limit_reset s)))
     = map (fun item => (transfer item, Stream.once_buffered (snd item)))
         (Track.streams s).
Proof.
  rewrite limit_reset_eq. simpl. repeat split.
  - apply gates_open_open_gate.
  - rewrite map_map. apply map_ext. by intros [k c].
Qed.

(** [limit_reset] cancels a timer exactly when one is pending, and logs
    the release exactly when a gate was clear. *)
Theorem limit_reset_effects (s : Track.t) :
  trace (Track.world (snd (Track.limit_reset s)))
  = trace (Track.world s)
    ++ match Track.limit_timer s with
       | Some _ => [Timer_cancel]
       | None => []
       end
    ++ (if gates_open (Track.streams s) then []
        else [log INFO "Stream rate-limiting disabled"]).
Proof. rewrite limit_reset_eq. reflexivity. Qed.

(** A second [limit_reset] changes nothing: no timer is left to cancel
    and no gate to set, and nothing is logged. *)
Theorem limit_reset_idempotent (s : Track.t) :
  Track.limit_reset (snd (Track.limit_reset s))
  = (Ok tt, snd (Track.limit_reset s)).
Proof.
  rewrite (limit_reset_eq (snd (Track.limit_reset s))).
  rewrite (limit_reset_eq s). unfold limit_reset_trace at 1. simpl.
  rewrite gates_open_open_gate, open_gate_idem. simpl.
  unfold add_trace; simpl. by rewrite app_nil_r.
Qed.

(** [limit_buffered] releases the limits when every stream whose gate is
    set has been buffered (streams whose gate is clear are not looked at,
    and an empty registry counts as buffered); otherwise it leaves the
    session as it is. *)
Theorem limit_buffered_releases_when_ready (s : Track.t) :
  fst (Track.limit_buffered s) = Ok tt
  /\ if priority_buffered (Track.streams s)
     then Track.streams (snd (Track.limit_buffered s))
          = map open_gate (Track.streams s)
          /\ Track.limit_timer (snd (Track.limit_buffered s)) = None
          /\ trace (Track.world (snd (Track.limit_buffered s)))
             = trace (Track.world s)
               ++ [log INFO "Priority streams have been buffered"]
               ++ limit_reset_trace s
     else snd (Track.limit_buffered s) = s.
Proof.
  unfold Track.limit_buffered, priority_buffered. munfold. simpl.
  destruct (forallb _ _); simpl; [|done].
  match goal with
  | |- context [Track.limit_reset ?st] => rewrite (limit_reset_eq st)
  end.
  unfold limit_reset_trace. simpl. repeat split. by rewrite <- app_assoc.
Qed.

(** Whatever [limit_set] paused, [limit_reset] releases: after the two
    calls every gate is set, and the streams are as they were on the
    stream side. *)
Theorem limit_reset_undoes_limit_set (s : Track.t) :
  let s' := snd (Track.limit_reset (snd (Track.limit_set s))) in
  gates_open (Track.streams s') = true
  /\ map transfer (Track.streams s') = map transfer (Track.streams s).
Proof.
  cbv zeta. rewrite limit_reset_eq. simpl.
  split; [apply gates_open_open_gate|].
  rewrite transfer_open_gate.
  destruct (limit_set_eq s) as [es ->]. simpl.
  destruct (limit_applies (Track.streams s)); simpl; [|done].
  apply transfer_limit_entry.
Qed.

(** ** [setup] at its edges *)

Ltac setup_unfold :=
  unfold Track.setup, Track.callback, Track.next_uri_answer,
    Track.on_track_uri, Track.on_track_error, Track.on_start,
    Track.time_time, Track.perform;
  munfold; simpl.

Lemma setup_hang (s : Track.t) :
  Track.metadata s = None ->
  Track.metadata_ev s = false ->
  metadata_answer (Track.world s) = None ->
  Track.setup s = (Hang, add_trace [sp_metadata (Track.uri s)] s).
Proof.
  intros Hm Hev Ha. setup_unfold. rewrite Hm, Ha. simpl. rewrite Hev.
  unfold add_trace. by rewrite Ha.
Qed.

(** Without metadata and without an answer of the metadata service,
    [setup] sends the metadata request and never returns: the wait on the
    metadata event has no timeout.  No resolution request is sent. *)
Theorem setup_hangs_without_metadata (s : Track.t) :
  Track.metadata s = None ->
  Track.metadata_ev s = false ->
  metadata_answer (Track.world s) = None ->
  Track.setup s = (Hang, add_trace [sp_metadata (Track.uri s)] s).
Proof. exact (setup_hang s). Qed.

Lemma setup_hangs_without_metadata_witness :
  fst (Track.setup
         (Track.init
            {| metadata_answer := None; uri_answers := [];
               clock := fun _ => 0%Q; clock_reads := 0; trace := [] |}
            "spotify:track:sample"))
  = Hang.
Proof.
  exact (f_equal fst
    (setup_hangs_without_metadata
       (Track.init
          {| metadata_answer := None; uri_answers := [];
             clock := fun _ => 0%Q; clock_reads := 0; trace := [] |}
          "spotify:track:sample") eq_refl eq_refl eq_refl)).
Defined.

(** With the metadata held or a metadata service that answers, [setup]
    returns without an exception whatever the resolver answers (an
    exception of a callback stays on the side of the service), holds the
    metadata afterwards and leaves the registry of streams untouched. *)
Theorem setup_returns_normally (s : Track.t) :
  setup_returns s = true ->
  fst (Track.setup s) = Ok tt
  /\ Track.metadata (snd (Track.setup s)) <> None
  /\ Track.streams (snd (Track.setup s)) = Track.streams s.
Proof.
  intros H. destruct (setup_ok s H) as [H1 H2].
  split; [done|]. split; [done|]. apply setup_streams.
Qed.

Lemma setup_returns_normally_witness :
  fst (Track.setup (fresh_session [uri_response ∅])) = Ok tt.
Proof.
  exact (proj1 (setup_returns_normally (fresh_session [uri_response ∅])
                  eq_refl)).
Defined.

(** A resolution that fails (error, or no answer within the wait) does
    not start the playback: the info stays [None], so that the next
    [setup] asks again; the track is not playing more than before, no
    timer is scheduled and no started event is sent. *)
Theorem setup_failure_does_not_start (s : Track.t) :
  Track.metadata s <> None ->
  Track.info s = None ->
  resolution_fails s = true ->
  let s' := snd (Track.setup s) in
  fst (Track.setup s) = Ok tt
  /\ Track.info s' = None
  /\ Track.playing s' = Track.playing s
  /\ Track.reading_start s' = Track.reading_start s
  /\ Track.limit_timer s' = Track.limit_timer s
  /\ started_events s' = started_events s
  /\ uri_resolutions s' = S (uri_resolutions s).
Proof.
  unfold resolution_fails, started_events, uri_resolutions.
  intros Hm Hi Hf. setup_unfold.
  destruct (Track.metadata s) eqn:Hmd; [|done]. simpl.
  rewrite Hmd, Hi. simpl.
  destruct (uri_answers (Track.world s)) as [|[resp|err|] rest];
    try discriminate Hf; simpl;
    rewrite ?List.filter_app, ?length_app; simpl;
    repeat split; first [reflexivity | assumption | lia].
Qed.

Lemma setup_failure_does_not_start_witness :
  Track.playing
    (snd (Track.setup (snd (Track.setup (fresh_session [uri_error "failed"])))))
  = Track.playing (snd (Track.setup (fresh_session [uri_error "failed"]))).
Proof.
  exact (proj1 (proj2 (proj2
    (setup_failure_does_not_start
       (snd (Track.setup (fresh_session [uri_error "failed"])))
       ltac:(vm_compute; discriminate) ltac:(vm_compute; reflexivity)
       ltac:(vm_compute; reflexivity))))).
Defined.



(** ** The registry through the calls *)

Lemma only_logs_app es es' :
  only_logs es = true -> only_logs es' = true -> only_logs (es ++ es') = true.
Proof. unfold only_logs. intros H H'. by rewrite forallb_app, H, H'. Qed.

Lemma only_logs_filter (f : Event -> bool) es :
  (forall lvl msg, f (log lvl msg) = false) ->
  only_logs es = true -> List.filter f es = [].
Proof.
  intros Hf. induction es as [|e es IH]; simpl; [done|].
  destruct e; simpl; try discriminate. rewrite Hf. exact IH.
Qed.

Lemma stream_loop_logs r (d : items) s :
  exists es, Track.stream_loop r d s = (Ok (reused r d), add_trace es s)
             /\ only_logs es = true.
Proof.
  revert s. induction d as [|[[s_start s_end] c] d IH]; intros s.
  - exists []. by rewrite add_trace_nil.
  - unfold reused. simpl.
    rewrite end_not_contained_spec.
    rewrite (Z.gtb_ltb s_start), (Z.gtb_ltb _ Track.reuse_distance).
    change Track.reuse_distance with 1048576.
    change Track.final_distance with 131072.
    rewrite (Z.leb_antisym (Range.start r) s_start).
    destruct (Range.start r <? s_start); simpl; [apply IH|].
    destruct (bool_decide (s_end = Range.end_ r) || _); simpl; [|apply IH].
    destruct (Stream.on_open c); simpl;
      [destruct (_ && _); simpl;
       [|exists []; by rewrite add_trace_nil]|];
      munfold; rewrite perform_eq;
      match goal with
      | |- context [Track.stream_loop r d ?st] =>
          destruct (IH st) as (es & -> & Hl)
      end;
      eexists; rewrite add_trace_app; (split; [reflexivity|]);
      by apply only_logs_app.
Qed.

Lemma limit_set_loop_logs (d : items) s :
  exists es, Track.limit_set_loop d s = (Ok (map limit_entry d), add_trace es s)
             /\ only_logs es = true.
Proof.
  revert s. induction d as [|[[start end_] c] d IH]; intros s; simpl.
  - exists []. by rewrite add_trace_nil.
  - destruct (Track.not_int start && Track.not_opt_int end_); munfold;
      rewrite perform_eq;
      match goal with
      | |- context [Track.limit_set_loop d ?st] =>
          destruct (IH st) as (es & -> & Hl)
      end; eexists; rewrite add_trace_app; (split; [reflexivity|]);
      by apply only_logs_app.
Qed.

Lemma limit_set_logs s :
  exists es,
    Track.limit_set s
    = (Ok tt,
       if limit_applies (Track.streams s)
       then add_trace es (Track.set_streams (map limit_entry (Track.streams s)) s)
       else s)
    /\ only_logs es = true.
Proof.
  unfold Track.limit_set, limit_applies. munfold. simpl.
  destruct (length (Track.streams s) <? 2)%nat; simpl; [by exists []|].
  destruct (length _ <? 1)%nat; simpl; [by exists []|].
  match goal with
  | |- context [Track.limit_set_loop ?d ?st] =>
      destruct (limit_set_loop_logs d st) as (es & -> & Hl)
  end.
  exists (log DEBUG "Multiple active streams, setting up rate-limits" :: es).
  split; [state_eq|exact Hl].
Qed.

(** The state [stream] hands to [setup], and what it does after it: the
    call differs from that run of [setup] by log lines and by the
    registry only. *)
Lemma stream_decompose r_range s :
  exists st es es',
    core st = core s
    /\ trace (Track.world st) = trace (Track.world s) ++ es
    /\ only_logs es = true
    /\ (Track.streams st = Track.streams s
        \/ Track.dict_in (Range.tuple (requested r_range)) (Track.streams s)
           = false
           /\ Track.streams st
              = Track.streams s
                ++ [(Range.tuple (requested r_range),
                     Stream.new (length (Track.streams s))
                       (requested r_range))])
    /\ core (snd (Track.stream r_range s)) = core (snd (Track.setup st))
    /\ trace (Track.world (snd (Track.stream r_range s)))
       = trace (Track.world (snd (Track.setup st))) ++ es'
    /\ only_logs es' = true
    /\ map transfer (Track.streams (snd (Track.stream r_range s)))
       = map transfer (Track.streams st).
Proof.
  unfold Track.stream. fold (requested r_range).
  generalize (requested r_range) as r. intros r. munfold. simpl.
  destruct (Track.dict_in (Range.tuple r) (Track.streams s)) eqn:Hin.
  - match goal with
    | |- context [Track.setup ?st] =>
        exists st, [log INFO "Returning existing stream (r_range: %s)"], [];
        pose proof (setup_streams st) as Hs;
        destruct (Track.setup st) as [[] s1]
    end; simpl in *; rewrite app_nil_r, Hs; auto 10.
  - destruct (stream_loop_logs r (Track.streams s) s) as (es & -> & Hl).
    destruct (reused r (Track.streams s)) as [k|].
    + match goal with
      | |- context [Track.setup ?st] =>
          exists st,
            (es ++ [log INFO
               "Returning existing stream with similar range (s_range: %s)"]),
            [];
          pose proof (setup_streams st) as Hs;
          destruct (Track.setup st) as [[] s1]
      end; simpl in *; rewrite app_nil_r, Hs, <- app_assoc;
        (repeat split; auto); by apply only_logs_app.
    + match goal with
      | |- context [Track.setup ?st] =>
          exists st,
            (es ++ [log INFO "Building stream for track (r_range: %s)"]);
          pose proof (setup_streams st) as Hs;
          destruct (Track.setup st) as [[] s1]
      end; simpl in *; rewrite dict_set_fresh in * by done;
        try (exists []; rewrite app_nil_r, Hs, <- app_assoc;
             (repeat split; auto); by apply only_logs_app).
      destruct (Track.info_invalid (Track.info s1)); simpl.
      * exists []. rewrite app_nil_r, Hs, <- app_assoc.
        (repeat split; auto); by apply only_logs_app.
      * destruct (limit_set_logs s1) as (es' & -> & Hl').
        destruct (limit_applies (Track.streams s1)); simpl;
          [exists es'|exists []];
          rewrite ?app_nil_r, ?transfer_limit_entry, Hs, <- app_assoc;
          (repeat split; auto); by apply only_logs_app.
Qed.

Ltac cases_on_matches :=
  repeat (match goal with
          | |- context [match ?x with _ => _ end] =>
              lazymatch x with
              | context [match _ with _ => _ end] => fail
              | _ => destruct x eqn:?
              end
          end; simpl in *; try congruence).

Lemma limit_buffered_eq s :
  Track.limit_buffered s
  = if priority_buffered (Track.streams s)
    then Track.limit_reset
           (add_trace [log INFO "Priority streams have been buffered"] s)
    else (Ok tt, s).
Proof.
  unfold Track.limit_buffered, priority_buffered. munfold. simpl.
  destruct (forallb _ _); simpl; reflexivity.
Qed.

Lemma end_streams s : Track.streams (snd (Track.end_ s)) = Track.streams s.
Proof.
  unfold Track.end_, Track.position, Track.time_time, Track.perform.
  munfold. simpl. cases_on_matches; reflexivity.
Qed.

Lemma ident_of_transfer (d : items) : map ident d = map fst (map transfer d).
Proof. rewrite map_map. reflexivity. Qed.

(** What a call does to the registry, seen from the stream side: nothing,
    or one new stream at its end, under a key that was free. *)
Lemma run_registry c s :
  map transfer (Track.streams (run c s)) = map transfer (Track.streams s)
  \/ exists r,
       Track.dict_in (Range.tuple r) (Track.streams s) = false
       /\ map transfer (Track.streams (run c s))
          = map transfer
              (Track.streams s
               ++ [(Range.tuple r, Stream.new (length (Track.streams s)) r)]).
Proof.
  destruct c; simpl.
  - left. by rewrite setup_streams.
  - destruct (stream_decompose r_range s)
      as (st & es & es' & _ & _ & _ & [Hst|[Hin Hst]] & _ & _ & _ & Ht);
      rewrite Ht, Hst; [by left|right; eauto].
  - left. destruct (limit_set_eq s) as [es ->]. simpl.
    destruct (limit_applies (Track.streams s)); simpl; [|done].
    apply transfer_limit_entry.
  - left. rewrite limit_buffered_eq.
    destruct (priority_buffered (Track.streams s)); [|done].
    rewrite limit_reset_eq. simpl. apply transfer_open_gate.
  - left. rewrite limit_reset_eq. simpl. apply transfer_open_gate.
  - left. destruct (Track.metadata s) as [m|] eqn:Hm.
    + rewrite (position_eq s m Hm). simpl. by destruct (started s).
    + rewrite (position_none s Hm). simpl. by destruct (started s).
  - left. by rewrite end_streams.
Qed.

(** No call removes or replaces a registered stream, changes its key,
    index or range, or writes what belongs to the stream side (state,
    buffer, total length, open signal); a call adds at most one stream,
    at the end of the registry. *)
Theorem registry_never_shrinks (c : call) (s : Track.t) :
  exists added : items,
    (length added <= 1)%nat
    /\ map transfer (Track.streams (run c s))
       = map transfer (Track.streams s) ++ map transfer added.
Proof.
  destruct (run_registry c s) as [H|(r & _ & H)].
  - exists []. rewrite app_nil_r. split; [simpl; lia|exact H].
  - eexists [_]. rewrite H, map_app. split; [simpl; lia|reflexivity].
Qed.

Lemma numbered_app n l l' :
  numbered n (l ++ l') <-> numbered n l /\ numbered (n + length l) l'.
Proof.
  revert n. induction l as [|[[k i] r] l IH]; intros n; simpl.
  - rewrite Nat.add_0_r. tauto.
  - rewrite IH. replace (S n + length l)%nat with (n + S (length l))%nat by lia.
    tauto.
Qed.

Lemma numbered_lookup n l j k i r :
  numbered n l -> l !! j = Some (k, i, r) ->
  i = (n + j)%nat /\ r = Range.Range (fst k) (snd k).
Proof.
  revert n j. induction l as [|[[k0 i0] r0] l IH]; intros n j; simpl.
  - intros _ H. by rewrite lookup_nil in H.
  - intros (Hi & Hr & Hl). destruct j as [|j]; simpl.
    + intros [= <- <- <-]. split; [lia|done].
    + intros H. destruct (IH _ _ Hl H) as [-> ->]. split; [lia|done].
Qed.

Lemma registry_ok_ident (d d' : items) :
  map ident d = map ident d' -> registry_ok d' -> registry_ok d.
Proof.
  unfold registry_ok. intros H. by rewrite !keys_of_ident, H.
Qed.

Lemma registry_ok_new (d : items) r :
  Track.dict_in (Range.tuple r) d = false ->
  registry_ok d ->
  registry_ok (d ++ [(Range.tuple r, Stream.new (length d) r)]).
Proof.
  intros Hin [Hnd Hnum]. split.
  - rewrite map_app. simpl. apply NoDup_app. split; [done|]. split.
    + intros k Hk ->%list_elem_of_singleton.
      apply dict_in_keys in Hk. congruence.
    + apply NoDup_singleton.
  - rewrite map_app. apply numbered_app. split; [done|]. simpl.
    rewrite length_map. by destruct r.
Qed.

Lemma run_registry_ok c s :
  registry_ok (Track.streams s) -> registry_ok (Track.streams (run c s)).
Proof.
  intros Hok. destruct (run_registry c s) as [H|(r & Hin & H)].
  - apply (registry_ok_ident _ (Track.streams s)); [|done].
    by rewrite !ident_of_transfer, H.
  - apply (registry_ok_ident _ (Track.streams s
      ++ [(Range.tuple r, Stream.new (length (Track.streams s)) r)])).
    + by rewrite !ident_of_transfer, H.
    + by apply registry_ok_new.
Qed.

Lemma history_registry_ok s0 s :
  history s0 s -> registry_ok (Track.streams s0) ->
  registry_ok (Track.streams s).
Proof.
  induction 1 as [|c s _ IH|d s _ IH Hd]; intros H0; [done| |].
  - by apply run_registry_ok, IH.
  - simpl. by apply (registry_ok_ident _ (Track.streams s)), IH.
Qed.

(** In every session that follows a new one, no key is registered twice,
    the index of a registered stream is its place in the registry, and
    its range is the one of its key. *)
Theorem registry_well_formed (w : World) (u : string) (s : Track.t) :
  history (Track.init w u) s ->
  NoDup (map fst (Track.streams s))
  /\ forall (n : nat) (k : Z * option Z) (c : Stream.t),
       Track.streams s !! n = Some (k, c) ->
       Stream.index c = n /\ Range.tuple (Stream.range c) = k.
Proof.
  intros H. destruct (history_registry_ok _ _ H) as [Hnd Hnum].
  { split; [apply NoDup_nil_2|exact I]. }
  split; [exact Hnd|]. intros n k c Hl.
  assert (map ident (Track.streams s) !! n
          = Some (k, Stream.index c, Stream.range c)) as Hi.
  { by rewrite list_lookup_fmap, Hl. }
  destruct (numbered_lookup _ _ _ _ _ _ Hnum Hi) as [-> ->].
  split; [done|]. by destruct k.
Qed.

Lemma registry_well_formed_witness :
  NoDup (map fst (Track.streams
    (run (call_stream (Some (Range.Range 4096 None)))
       (run (call_stream None) (fresh_session []))))).
Proof.
  exact (proj1 (registry_well_formed (sample_world []) "spotify:track:sample" _
    (history_run _ (call_stream (Some (Range.Range 4096 None))) _
       (history_run _ (call_stream None) _ (history_start _))))).
Defined.

(** ** The lifecycle through the calls *)

Lemma log_restrictions_logs rs s :
  exists es, Track.log_restrictions rs s = (Ok tt, add_trace es s)
             /\ only_logs es = true.
Proof.
  revert s. induction rs as [|x rs IH]; intros s; simpl.
  - exists []. by rewrite add_trace_nil.
  - munfold. rewrite perform_eq.
    match goal with
    | |- context [Track.log_restrictions rs ?st] =>
        destruct (IH st) as (es & -> & Hl)
    end.
    eexists. rewrite add_trace_app. split; [reflexivity|].
    by apply only_logs_app.
Qed.

(** The metadata callback sends no event to the metadata service. *)
Lemma on_metadata_events m s :
  exists m' es,
    Track.on_metadata m s
    = (Ok tt, add_trace es
                (Track.set_metadata_ev true (Track.set_metadata (Some m') s)))
    /\ List.filter is_started es = []
    /\ List.filter is_ended es = [].
Proof.
  unfold Track.on_metadata, Metadata.find_alternative, Track.perform.
  munfold. simpl.
  destruct (Metadata.is_available m); simpl;
    [|destruct (Metadata.alternative m); simpl];
    match goal with
    | |- context [Track.log_restrictions ?rs ?st] =>
        destruct (log_restrictions_logs rs st) as (es & -> & Hl)
    end; simpl;
    eexists; eexists; (split; [state_eq|]);
    repeat (progress (simpl; rewrite ?List.filter_app));
    rewrite !(only_logs_filter _ es) by done; done.
Qed.

Ltac setup_cases_events :=
  unfold Track.setup, Track.callback, Track.next_uri_answer,
    Track.on_track_uri, Track.on_track_error, Track.on_start,
    Track.time_time, Track.perform;
  munfold; simpl;
  repeat (first
    [ match goal with
      | |- context [Track.on_metadata ?m ?st] =>
          let m' := fresh "m'" in
          let es := fresh "es" in
          let Hs := fresh "Hs" in
          let He := fresh "He" in
          destruct (on_metadata_events m st) as (m' & es & -> & Hs & He)
      end
    | match goal with
      | |- context [match ?x with _ => _ end] =>
          lazymatch x with
          | context [match _ with _ => _ end] => fail
          | _ => destruct x eqn:?
          end
      end ];
    simpl in *; try congruence).

Ltac step_finish :=
  rewrite ?List.filter_app, ?length_app; simpl;
  repeat match goal with
         | H : List.filter _ _ = [] |- _ => rewrite H; clear H
         end;
  simpl;
  repeat split; intros;
  try first [ reflexivity | congruence | lia | tauto
            | left; first [reflexivity | congruence
                          | split; first [reflexivity | congruence] ]
            | right; first [reflexivity | congruence
                           | repeat split; congruence] ].

Lemma setup_step s : lifecycle_step s (snd (Track.setup s)).
Proof.
  unfold lifecycle_step, started_events, ended_events.
  setup_cases_events; step_finish.
Qed.

Lemma lifecycle_step_quiet s s' es :
  Track.playing s' = Track.playing s ->
  Track.ended s' = Track.ended s ->
  Track.reading_start s' = Track.reading_start s ->
  trace (Track.world s') = trace (Track.world s) ++ es ->
  List.filter is_started es = [] ->
  List.filter is_ended es = [] ->
  lifecycle_step s s'.
Proof.
  unfold lifecycle_step, started_events, ended_events.
  intros -> -> -> -> Hs He. rewrite !List.filter_app, !length_app, Hs, He.
  simpl. destruct (Track.playing s), (Track.ended s); repeat split; auto; lia.
Qed.

Lemma lifecycle_step_core s st s1 s' es es' :
  core st = core s ->
  trace (Track.world st) = trace (Track.world s) ++ es ->
  only_logs es = true ->
  core s' = core s1 ->
  trace (Track.world s') = trace (Track.world s1) ++ es' ->
  only_logs es' = true ->
  lifecycle_step st s1 -> lifecycle_step s s'.
Proof.
  unfold core, lifecycle_step, started_events, ended_events.
  intros [= _ _ _ _ _ _ Hrs Hp He _ _ _ _] Ht Hl
         [= _ _ _ _ _ _ Hrs' Hp' He' _ _ _ _] Ht' Hl'.
  rewrite Ht, Ht', !List.filter_app, !length_app, Hrs, Hrs', Hp, Hp', He, He'.
  rewrite !(only_logs_filter _ es), !(only_logs_filter _ es') by done.
  simpl. by rewrite !Nat.add_0_r.
Qed.

Lemma end_step s : lifecycle_step s (snd (Track.end_ s)).
Proof.
  unfold lifecycle_step, started_events, ended_events.
  unfold Track.end_, Track.position, Track.time_time, Track.perform.
  munfold. simpl. cases_on_matches; step_finish.
Qed.

(** Every call moves the lifecycle by a step. *)
Lemma run_lifecycle_step c s : lifecycle_step s (run c s).
Proof.
  destruct c; simpl.
  - apply setup_step.
  - destruct (stream_decompose r_range s)
      as (st & es & es' & Hc & Ht & Hl & _ & Hc' & Ht' & Hl' & _).
    exact (lifecycle_step_core _ _ _ _ _ _ Hc Ht Hl Hc' Ht' Hl'
             (setup_step st)).
  - destruct (limit_set_logs s) as (es & -> & Hl). simpl.
    destruct (limit_applies (Track.streams s)).
    + apply (lifecycle_step_quiet _ _ es); try reflexivity;
        by apply only_logs_filter.
    + apply (lifecycle_step_quiet _ _ []); try reflexivity.
      by rewrite app_nil_r.
  - rewrite limit_buffered_eq.
    destruct (priority_buffered (Track.streams s)).
    + rewrite limit_reset_eq.
      apply (lifecycle_step_quiet _ _
        (log INFO "Priority streams have been buffered"
         :: limit_reset_trace
              (add_trace [log INFO "Priority streams have been buffered"] s)));
        try reflexivity; simpl.
      * by rewrite <- app_assoc.
      * unfold limit_reset_trace. simpl.
        by destruct (Track.limit_timer s), (gates_open (Track.streams s)).
      * unfold limit_reset_trace. simpl.
        by destruct (Track.limit_timer s), (gates_open (Track.streams s)).
    + apply (lifecycle_step_quiet _ _ []); try reflexivity.
      by rewrite app_nil_r.
  - rewrite limit_reset_eq.
    apply (lifecycle_step_quiet _ _ (limit_reset_trace s)); try reflexivity;
      unfold limit_reset_trace;
      by destruct (Track.limit_timer s), (gates_open (Track.streams s)).
  - apply (lifecycle_step_quiet _ _ []); try reflexivity;
      destruct (Track.metadata s) as [m|] eqn:Hm;
      rewrite ?(position_eq s m Hm), ?(position_none s Hm); simpl;
      destruct (started s); simpl; by rewrite ?app_nil_r.
  - apply end_step.
Qed.

Lemma history_lifecycle w u s :
  history (Track.init w u) s ->
  started_events s
  = (started_events (Track.init w u) + if Track.playing s then 1 else 0)%nat
  /\ ended_events s
     = (ended_events (Track.init w u) + if Track.ended s then 1 else 0)%nat
  /\ (Track.ended s = true -> Track.playing s = true)
  /\ (Track.playing s = true <-> Track.reading_start s <> None).
Proof.
  induction 1 as [|c s _ IH|d s _ IH _]; [| |exact IH].
  - simpl. rewrite !Nat.add_0_r. repeat split; done.
  - destruct IH as (Hs & He & Hep & Hpr).
    destruct (run_lifecycle_step c s) as (Hp & Hen & Hen' & Hs' & He' & Hrs).
    rewrite Hs', He', Hs, He. clear Hs' He' Hs He.
    set (P := Track.playing s) in *. set (E := Track.ended s) in *.
    set (P' := Track.playing (run c s)) in *.
    set (E' := Track.ended (run c s)) in *.
    set (R := Track.reading_start s) in *.
    set (R' := Track.reading_start (run c s)) in *.
    clearbody P E P' E' R R'.
    destruct P, E, P', E'; simpl in *;
      repeat split; intros;
      try first [ lia | done | congruence
                | by (destruct Hen' as [?|?]; auto)
                | by (specialize (Hp eq_refl))
                | by (specialize (Hen eq_refl))
                | by (specialize (Hep eq_refl))
                | by (destruct Hrs as [[? Hrs]|(? & ? & ?)];
                      [rewrite Hrs in *; apply Hpr; auto|auto]) ].
Qed.

(** In the sessions that follow a new one, the started event has been
    sent once if the track plays and not at all otherwise. *)
Theorem started_event_sent_once (w : World) (u : string) (s : Track.t) :
  history (Track.init w u) s ->
  started_events s
  = (started_events (Track.init w u) + if Track.playing s then 1 else 0)%nat.
Proof. intros H. exact (proj1 (history_lifecycle w u s H)). Qed.

Lemma started_event_sent_once_witness :
  started_events
    (run call_setup (run (call_stream None)
       (fresh_session [uri_response {["result" := sample_info]}])))
  = 1%nat.
Proof.
  pose proof (started_event_sent_once
    (sample_world [uri_response {["result" := sample_info]}])
    "spotify:track:sample" _
    (history_run _ call_setup _
       (history_run _ (call_stream None) _ (history_start _)))) as H.
  vm_compute in H |- *. exact H.
Defined.

(** In the sessions that follow a new one, the ended event has been sent
    once if the track has ended and not at all otherwise, and a track
    that has ended is a track that plays. *)
Theorem ended_event_sent_once (w : World) (u : string) (s : Track.t) :
  history (Track.init w u) s ->
  ended_events s
  = (ended_events (Track.init w u) + if Track.ended s then 1 else 0)%nat
  /\ (Track.ended s = true -> Track.playing s = true).
Proof.
  intros H. destruct (history_lifecycle w u s H) as (_ & He & Hp & _).
  by split.
Qed.

Lemma ended_event_sent_once_witness :
  ended_events
    (run call_end (run call_end (run (call_stream None)
       (fresh_session [uri_response {["result" := sample_info]}]))))
  = 1%nat.
Proof.
  pose proof (proj1 (ended_event_sent_once
    (sample_world [uri_response {["result" := sample_info]}])
    "spotify:track:sample" _
    (history_run _ call_end _
       (history_run _ call_end _
          (history_run _ (call_stream None) _ (history_start _)))))) as H.
  vm_compute in H |- *. exact H.
Defined.

(** In the sessions that follow a new one, [reading_start] is set
    exactly when the track plays, and once set no call changes it. *)
Theorem reading_start_set_once (w : World) (u : string) (s : Track.t) :
  history (Track.init w u) s ->
  (Track.playing s = true <-> Track.reading_start s <> None)
  /\ forall c : call,
       Track.reading_start s <> None ->
       Track.reading_start (run c s) = Track.reading_start s.
Proof.
  intros H. destruct (history_lifecycle w u s H) as (_ & _ & _ & Hpr).
  split; [exact Hpr|]. intros c Hrs.
  destruct (run_lifecycle_step c s) as (_ & _ & _ & _ & _ & [[_ ?]|[Hp _]]);
    [done|].
  apply Hpr in Hrs. congruence.
Qed.

Lemma reading_start_set_once_witness :
  Track.reading_start
    (run call_end
       (run call_setup
          (fresh_session [uri_response {["result" := sample_info]}])))
  = Track.reading_start
      (run call_setup
         (fresh_session [uri_response {["result" := sample_info]}])).
Proof.
  assert (Track.reading_start
            (run call_setup
               (fresh_session [uri_response {["result" := sample_info]}]))
          <> None) as Hne
    by (intros Hn; vm_compute in Hn; discriminate Hn).
  exact (proj2 (reading_start_set_once
    (sample_world [uri_response {["result" := sample_info]}])
    "spotify:track:sample"
    (run call_setup
       (fresh_session [uri_response {["result" := sample_info]}]))
    (history_run _ call_setup _ (history_start _))) call_end Hne).
Defined.

(** No call resets [playing] or [ended], and a call sets [ended] on a
    playing track only. *)
Theorem playing_and_ended_never_reset (c : call) (s : Track.t) :
  (Track.playing s = true -> Track.playing (run c s) = true)
  /\ (Track.ended s = true -> Track.ended (run c s) = true)
  /\ (Track.ended (run c s) = true ->
      Track.ended s = true \/ Track.playing s = true).
Proof.
  destruct (run_lifecycle_step c s) as (Hp & He & He' & _). auto.
Qed.

(** ** Acquisition and the info, continued *)

Lemma core_fields s s' :
  core s = core s' ->
  Track.metadata s = Track.metadata s'
  /\ Track.info s = Track.info s'
  /\ Track.playing s = Track.playing s'
  /\ Track.limit_timer s = Track.limit_timer s'
  /\ metadata_answer (Track.world s) = metadata_answer (Track.world s')
  /\ uri_answers (Track.world s) = uri_answers (Track.world s').
Proof. unfold core. intros [= ]. auto 10. Qed.

(** An info that the resolver has delivered without [uri] is never
    replaced: [setup] asks for a resolution only while the info is
    [None], so every later call that has to create a stream returns
    [None], without a new resolution request. *)
Theorem info_without_uri_is_kept (r_range : option Range.t) (s : Track.t)
    (i : Info) :
  Track.metadata s <> None ->
  Track.info s = Some i ->
  i !! "uri" = None ->
  let s' := snd (Track.stream r_range s) in
  Track.metadata s' <> None
  /\ Track.info s' = Some i
  /\ uri_resolutions s' = uri_resolutions s
  /\ (Track.dict_in (Range.tuple (requested r_range)) (Track.streams s)
      = false ->
      reused (requested r_range) (Track.streams s) = None ->
      fst (Track.stream r_range s) = Ok None).
Proof.
  intros Hm Hi Hu. cbv zeta.
  destruct (stream_decompose r_range s)
    as (st & es & es' & Hc & Ht & Hl & _ & Hc' & Ht' & Hl' & _).
  destruct (core_fields _ _ Hc) as (Hcm & Hci & _).
  rewrite setup_idle in Hc', Ht' by congruence. simpl in *.
  destruct (core_fields _ _ Hc') as (Hcm' & Hci' & _).
  assert (Track.info (snd (Track.stream r_range s)) = Some i) as Hi'
    by congruence.
  split; [congruence|]. split; [exact Hi'|]. split.
  - unfold uri_resolutions.
    rewrite Ht', Ht, !List.filter_app, !length_app.
    rewrite (only_logs_filter _ es), (only_logs_filter _ es') by done.
    simpl. lia.
  - intros Hin Hre.
    destruct (stream_outcome r_range s (setup_returns_metadata s Hm))
      as [_ H].
    rewrite Hin, Hre, Hi' in H. destruct H as [-> _].
    unfold Track.info_invalid. rewrite Hu.
    by destruct (bool_decide (i = ∅)).
Qed.

Lemma info_without_uri_is_kept_witness :
  fst (Track.stream (Some (Range.Range 4096 None)) session_without_uri)
  = Ok None.
Proof.
  assert (Track.metadata session_without_uri <> None) as Hm
    by (intros Hn; vm_compute in Hn; discriminate Hn).
  assert (Track.info session_without_uri = Some info_without_uri) as Hi
    by (vm_compute; reflexivity).
  assert (info_without_uri !! "uri" = None) as Hu
    by (vm_compute; reflexivity).
  destruct (info_without_uri_is_kept (Some (Range.Range 4096 None))
              session_without_uri info_without_uri Hm Hi Hu)
    as (_ & _ & _ & H).
  apply H; vm_compute; reflexivity.
Defined.




(** ** The position over time *)

Lemma quot_le_cross na da nb db :
  0 < da -> 0 < db -> na * db <= nb * da -> Z.quot na da <= Z.quot nb db.
Proof.
  intros Hda Hdb H.
  pose proof (Z.quot_rem' na da) as Ea.
  pose proof (Z.quot_rem' nb db) as Eb.
  pose proof (Z.rem_bound_abs na da ltac:(lia)) as Ba.
  pose proof (Z.rem_bound_abs nb db ltac:(lia)) as Bb.
  assert (0 <= na -> 0 <= Z.rem na da) as Sa
    by (intros; apply Z.rem_nonneg; lia).
  assert (na <= 0 -> Z.rem na da <= 0) as Sa'
    by (intros; apply Z.rem_nonpos; lia).
  assert (0 <= nb -> 0 <= Z.rem nb db) as Sb
    by (intros; apply Z.rem_nonneg; lia).
  assert (nb <= 0 -> Z.rem nb db <= 0) as Sb'
    by (intros; apply Z.rem_nonpos; lia).
  set (qa := Z.quot na da) in *. set (ra := Z.rem na da) in *.
  set (qb := Z.quot nb db) in *. set (rb := Z.rem nb db) in *.
  clearbody qa ra qb rb.
  apply Z.le_ngt. intros Hlt.
  assert (0 < da * db) as Hdd by nia.
  assert (da * db * (qb + 1) <= da * db * qa) as Hq
    by (apply Z.mul_le_mono_nonneg_l; lia).
  assert (na * db = da * db * qa + ra * db) as Ea' by (subst na; ring).
  assert (nb * da = da * db * qb + rb * da) as Eb' by (subst nb; ring).
  assert (- (da * db) < ra * db < da * db) as Ra by nia.
  assert (- (da * db) < rb * da < da * db) as Rb by nia.
  destruct (Z.le_gt_cases 0 (da * qa + ra)) as [Hna|Hna].
  - assert (0 <= ra * db) by (subst na; specialize (Sa Hna); nia). lia.
  - subst na.
    assert (ra * db <= 0) by (specialize (Sa' ltac:(lia)); nia).
    assert (qa <= 0) by nia.
    assert (db * qb + rb <= 0) as Hnb by (subst nb; nia).
    assert (rb * da <= 0) by (subst nb; specialize (Sb' Hnb); nia).
    lia.
Qed.

Lemma int_le (a b : Q) : (a <= b)%Q -> Track.int a <= Track.int b.
Proof.
  unfold Track.int, Qle. destruct a as [na da], b as [nb db]. simpl.
  intros H. apply quot_le_cross; lia.
Qed.

Lemma clamp_le d p q : p <= q -> clamp d p <= clamp d q.
Proof.
  unfold clamp. intros H.
  destruct (Z.gtb_spec p d), (Z.gtb_spec q d); lia.
Qed.

(** With the metadata held, the position does not go back from one
    reading to the next when the clock does not: it is the elapsed time
    in milliseconds, cut at the duration, and zero before the start. *)
Theorem position_never_goes_back (s : Track.t) (m : Metadata.t) :
  Track.metadata s = Some m ->
  (clock (Track.world s) (clock_reads (Track.world s))
   <= clock (Track.world s) (S (clock_reads (Track.world s))))%Q ->
  exists p1 p2,
    fst (Track.position s) = Ok p1
    /\ fst (Track.position (snd (Track.position s))) = Ok p2
    /\ p1 <= p2
    /\ (started s = false -> p1 = clamp (Metadata.duration m) 0).
Proof.
  intros Hm Hclock. rewrite (position_eq s m Hm). simpl.
  eexists; eexists. split; [reflexivity|].
  rewrite (position_eq _ m) by (by destruct (started s)). simpl.
  split; [reflexivity|]. unfold started, elapsed.
  destruct (Track.reading_start s) as [start|] eqn:Hrs; simpl.
  - destruct (Qeq_bool start 0) eqn:Hz; simpl; rewrite ?Hrs, ?Hz;
      [split; [lia|done]|].
    split; [|done]. apply clamp_le, int_le.
    apply Qmult_le_compat_r; [|done].
    apply Qplus_le_compat; [exact Hclock|apply Qle_refl].
  - rewrite ?Hrs. split; [lia|done].
Qed.

Lemma position_never_goes_back_witness :
  exists p1 p2,
    fst (Track.position playing_session) = Ok p1
    /\ fst (Track.position (snd (Track.position playing_session))) = Ok p2
    /\ p1 <= p2.
Proof.
  assert (Track.metadata playing_session = Some sample_metadata) as Hm
    by (vm_compute; reflexivity).
  assert (clock (Track.world playing_session)
            (clock_reads (Track.world playing_session))
          <= clock (Track.world playing_session)
               (S (clock_reads (Track.world playing_session))))%Q as Hc
    by (vm_compute; discriminate).
  destruct (position_never_goes_back playing_session sample_metadata Hm Hc)
    as (p1 & p2 & H1 & H2 & H3 & _).
  exists p1, p2. auto.
Defined.

(** ** What is written once *)




(** ** A call that waits for the metadata for ever *)

(** A call of [stream] on a session without metadata whose metadata
    service does not answer never returns; when the range matches no
    registered stream, the new stream has been registered all the same,
    for the registry is written before the setup. *)
Theorem stream_hangs_without_metadata (r_range : option Range.t)
    (s : Track.t) :
  Track.metadata s = None ->
  Track.metadata_ev s = false ->
  metadata_answer (Track.world s) = None ->
  let r := requested r_range in
  let s' := snd (Track.stream r_range s) in
  fst (Track.stream r_range s) = Hang
  /\ (Track.dict_in (Range.tuple r) (Track.streams s) = false ->
      reused r (Track.streams s) = None ->
      Track.streams s'
      = Track.streams s
        ++ [(Range.tuple r, Stream.new (length (Track.streams s)) r)]).
Proof.
  intros Hm Hev Ha. cbv zeta.
  unfold Track.stream. fold (requested r_range).
  generalize (requested r_range) as r. intros r. munfold. simpl.
  destruct (Track.dict_in (Range.tuple r) (Track.streams s)) eqn:Hin.
  - match goal with
    | |- context [Track.setup ?st] => rewrite (setup_hang st Hm Hev Ha)
    end. by split.
  - destruct (stream_loop_spec r (Track.streams s) s) as [es ->].
    destruct (reused r (Track.streams s)) as [k|];
      match goal with
      | |- context [Track.setup ?st] => rewrite (setup_hang st Hm Hev Ha)
      end; simpl; (split; [done|]); intros; try done.
    by rewrite dict_set_fresh.
Qed.

Lemma stream_hangs_without_metadata_witness :
  fst (Track.stream None
         (Track.init
            {| metadata_answer := None; uri_answers := [];
               clock := fun _ => 0%Q; clock_reads := 0; trace := [] |}
            "spotify:track:sample"))
  = Hang.
Proof.
  exact (proj1
    (stream_hangs_without_metadata None
       (Track.init
          {| metadata_answer := None; uri_answers := [];
             clock := fun _ => 0%Q; clock_reads := 0; trace := [] |}
          "spotify:track:sample") eq_refl eq_refl eq_refl)).
Defined.
